(** * gg-config: an interactive configuration wizard

    A shallow embedding of [main.go] and the properties of its prompting
    protocol, of its scalar type inference and of the document it emits.

    Conventions of the embedding.
    - A Go [string] is a Rocq [string]: a sequence of bytes.
    - Standard input is the sequence of bytes the operator types and the
      program has not read yet.  The program is an interactive wizard: its
      input is a terminal that hands over one line per read, so a
      [bufio.Scanner] never holds bytes beyond the line it returns and a
      reader created later continues where the previous one stopped.
    - Prompts written to standard output are not part of the model; the
      log, the exit status and the emitted document are.
    - The functions of the Go standard library that [main.go] calls are
      embedded from their Go sources, restricted to the arguments the
      program passes.  [strconv.ParseFloat] alone is a parameter: the
      conversion of decimal text to binary64 is outside the scope of the
      development, and nothing below depends on which strings it accepts. *)

From Stdlib Require Import ZArith Lia Ascii String.
From Stdlib Require Import Floats.PrimFloat Uint63.
From stdpp Require Import gmap strings list sorting.

Open Scope Z_scope.

(** ** Bytes and strings *)

Arguments String.append !_ _ : simpl nomatch.

Definition byte_val (c : ascii) : Z := Z.of_N (N_of_ascii c).

Definition byte_of (z : Z) : ascii := ascii_of_N (Z.to_N z).

Definition LF : ascii := ascii_of_nat 10.
Definition CR : ascii := ascii_of_nat 13.

Definition str_in (s : string) (l : list string) : bool :=
  existsb (String.eqb s) l.

(** [s[n:]] for [n] within the length of [s]. *)
Fixpoint drop_bytes (n : nat) (s : string) : string :=
  match n, s with
  | S n, String _ s' => drop_bytes n s'
  | _, _ => s
  end.

(** [s[:n]]. *)
Fixpoint take_bytes (n : nat) (s : string) : string :=
  match n, s with
  | S n, String c s' => String c (take_bytes n s')
  | _, _ => EmptyString
  end.

(** The input stream that holds the given lines, each ended by a newline. *)
Fixpoint lines (ls : list string) : string :=
  match ls with
  | [] => EmptyString
  | l :: ls => l +:+ String LF (lines ls)
  end.

(** ** Typed values: what a Go [any] holds in a collected mapping *)

Inductive value :=
| VBool (b : bool)
| VInt (i : Z)
| VFloat (f : float)
| VString (s : string).

(** ** Go errors

    An error is kept as the way it was built, not as its message. *)

Inductive error :=
| Errorf (msg : string)
| Wrapf (prefix : string) (err : error)
| ErrTokens (n : Z)
| ErrTooLong
| EOF
| ErrUnexpectedNewline
| UnsupportedValueError.

(** ** package strconv *)

Module strconv.

Inductive NumError := ErrSyntax | ErrRange.

(** [ParseBool]: the two literal sets of its switch. *)
Definition ParseBool (str : string) : option bool :=
  if str_in str ["1"; "t"; "T"; "TRUE"; "true"; "True"] then Some true
  else if str_in str ["0"; "f"; "F"; "FALSE"; "false"; "False"] then Some false
  else None.

Definition maxUint64 : Z := 2 ^ 64 - 1.

(** [lower(c)] is [c | ('x' - 'X')]. *)
Definition lower (c : Z) : Z := Z.lor c 32.

(** The digit switch of [ParseUint]'s loop when the base is given (the
    underscore case applies to base 0 only). *)
Definition digit_val (c : Z) : option Z :=
  if (48 <=? c) && (c <=? 57) then Some (c - 48)
  else if (97 <=? lower c) && (lower c <=? 122) then Some (lower c - 97 + 10)
  else None.

(** cutoff is the smallest number such that cutoff*base > maxUint64. *)
Definition cutoff (base : Z) : Z := maxUint64 / base + 1.

Definition maxVal (bitSize : Z) : Z := 2 ^ bitSize - 1.

(** The loop of [ParseUint] over the bytes of [s]; [n] is a uint64 and its
    arithmetic wraps around. *)
Fixpoint ParseUint_loop (base bitSize : Z) (s : string) (n : Z)
  : Z * option NumError :=
  match s with
  | EmptyString => (n, None)
  | String c s' =>
      match digit_val (byte_val c) with
      | None => (0, Some ErrSyntax)
      | Some d =>
          if base <=? d then (0, Some ErrSyntax)
          else if cutoff base <=? n then (maxVal bitSize, Some ErrRange)
          else
            let n := (n * base) mod 2 ^ 64 in
            let n1 := (n + d) mod 2 ^ 64 in
            if (n1 <? n) || (maxVal bitSize <? n1)
            then (maxVal bitSize, Some ErrRange)
            else ParseUint_loop base bitSize s' n1
      end
  end.

(** [ParseUint(s, base, bitSize)] for a base in 2..36 and a size in 1..64. *)
Definition ParseUint (s : string) (base bitSize : Z) : Z * option NumError :=
  match s with
  | EmptyString => (0, Some ErrSyntax)
  | _ => ParseUint_loop base bitSize s 0
  end.

(** The conversion [int64(un)] of a uint64, and int64 negation. *)
Definition int64 (z : Z) : Z := (z + 2 ^ 63) mod 2 ^ 64 - 2 ^ 63.

(** [ParseInt(s, base, bitSize)], same restrictions. *)
Definition ParseInt (s : string) (base bitSize : Z) : Z * option NumError :=
  match s with
  | EmptyString => (0, Some ErrSyntax)
  | String c rest =>
      let neg := Ascii.eqb c "-" in
      let s' := if Ascii.eqb c "+" || Ascii.eqb c "-" then rest else s in
      match ParseUint s' base bitSize with
      | (_, Some ErrSyntax) => (0, Some ErrSyntax)
      | (un, _) =>
          let cutoff := 2 ^ (bitSize - 1) in
          if negb neg && (cutoff <=? un) then (cutoff - 1, Some ErrRange)
          else if neg && (cutoff <? un) then (- cutoff, Some ErrRange)
          else
            let n := int64 un in
            let n := if neg then int64 (- n) else n in
            (n, None)
      end
  end.

End strconv.

(** ** package unicode/utf8, and the white space of [unicode] and [fmt] *)

Module utf8.

Definition RuneError : Z := 0xFFFD.

(** The table [first]: for a leading byte above ASCII, the size of the
    encoding and the range accepted for its second byte; [None] is the
    entry [xx] of an invalid leading byte. *)
Definition first (p0 : Z) : option (nat * Z * Z) :=
  if p0 <? 0xC2 then None
  else if p0 <=? 0xDF then Some (2%nat, 0x80, 0xBF)
  else if p0 =? 0xE0 then Some (3%nat, 0xA0, 0xBF)
  else if p0 <=? 0xEC then Some (3%nat, 0x80, 0xBF)
  else if p0 =? 0xED then Some (3%nat, 0x80, 0x9F)
  else if p0 <=? 0xEF then Some (3%nat, 0x80, 0xBF)
  else if p0 =? 0xF0 then Some (4%nat, 0x90, 0xBF)
  else if p0 <=? 0xF3 then Some (4%nat, 0x80, 0xBF)
  else if p0 =? 0xF4 then Some (4%nat, 0x80, 0x8F)
  else None.

(** [p[i]], for [i] within the length of [p]. *)
Definition at_index (p : string) (i : nat) : Z :=
  match String.get i p with
  | Some c => byte_val c
  | None => 0
  end.

Definition continuation (b : Z) : bool := (0x80 <=? b) && (b <=? 0xBF).

(** [DecodeRune(p)]: the first rune of [p] and its width in bytes. *)
Definition DecodeRune (p : string) : Z * nat :=
  match p with
  | EmptyString => (RuneError, 0%nat)
  | String c _ =>
      let p0 := byte_val c in
      if p0 <? 0x80 then (p0, 1%nat)
      else
        match first p0 with
        | None => (RuneError, 1%nat)
        | Some (sz, lo, hi) =>
            if (String.length p <? sz)%nat then (RuneError, 1%nat)
            else
              let b1 := at_index p 1 in
              if (b1 <? lo) || (hi <? b1) then (RuneError, 1%nat)
              else if (sz <=? 2)%nat
              then (Z.lor (Z.shiftl (Z.land p0 0x1F) 6) (Z.land b1 0x3F), 2%nat)
              else
                let b2 := at_index p 2 in
                if negb (continuation b2) then (RuneError, 1%nat)
                else if (sz <=? 3)%nat
                then (Z.lor (Z.lor (Z.shiftl (Z.land p0 0x0F) 12)
                                   (Z.shiftl (Z.land b1 0x3F) 6))
                            (Z.land b2 0x3F), 3%nat)
                else
                  let b3 := at_index p 3 in
                  if negb (continuation b3) then (RuneError, 1%nat)
                  else (Z.lor (Z.lor (Z.lor (Z.shiftl (Z.land p0 0x07) 18)
                                            (Z.shiftl (Z.land b1 0x3F) 12))
                                     (Z.shiftl (Z.land b2 0x3F) 6))
                              (Z.land b3 0x3F), 4%nat)
        end
  end.

Definition bytes (l : list Z) : string :=
  fold_right (fun b s => String (byte_of b) s) EmptyString l.

(** [AppendRune(nil, r)]: the encoding of [r]. *)
Definition EncodeRune (r : Z) : string :=
  if (0 <=? r) && (r <=? 0x7F) then bytes [r]
  else if (0 <=? r) && (r <=? 0x7FF)
  then bytes [Z.lor 0xC0 (Z.shiftr r 6); Z.lor 0x80 (Z.land r 0x3F)]
  else if (r <? 0) || (0x10FFFF <? r) || ((0xD800 <=? r) && (r <=? 0xDFFF))
  then bytes [0xEF; 0xBF; 0xBD]
  else if r <=? 0xFFFF
  then bytes [Z.lor 0xE0 (Z.shiftr r 12);
              Z.lor 0x80 (Z.land (Z.shiftr r 6) 0x3F);
              Z.lor 0x80 (Z.land r 0x3F)]
  else bytes [Z.lor 0xF0 (Z.shiftr r 18);
              Z.lor 0x80 (Z.land (Z.shiftr r 12) 0x3F);
              Z.lor 0x80 (Z.land (Z.shiftr r 6) 0x3F);
              Z.lor 0x80 (Z.land r 0x3F)].

End utf8.

(** [unicode.IsSpace] and the [isSpace] of package fmt: the same set, the
    code points with the White_Space property. *)
Definition isSpace (r : Z) : bool :=
  ((0x0009 <=? r) && (r <=? 0x000D))
  || (r =? 0x0020) || (r =? 0x0085) || (r =? 0x00A0) || (r =? 0x1680)
  || ((0x2000 <=? r) && (r <=? 0x200A))
  || ((0x2028 <=? r) && (r <=? 0x2029))
  || (r =? 0x202F) || (r =? 0x205F) || (r =? 0x3000).

(** ** package strings *)

Module strings.

(** [Split(s, sep)] for a separator of one byte: the parts between the
    occurrences of [sep], empty parts included. *)
Fixpoint Split (s : string) (sep : ascii) : list string :=
  match s with
  | EmptyString => [EmptyString]
  | String c s' =>
      if Ascii.eqb c sep then EmptyString :: Split s' sep
      else
        match Split s' sep with
        | p :: ps => String c p :: ps
        | [] => [String c EmptyString]
        end
  end.

(** The table [asciiSpace]: tab, newline, vertical tab, form feed, carriage
    return, space. *)
Definition asciiSpace (c : Z) : bool := ((9 <=? c) && (c <=? 13)) || (c =? 32).

(** The field being read, if one is open, and the fields it closes. *)
Definition flush (field : option string) : list string :=
  match field with
  | Some f => [f]
  | None => []
  end.

Definition extend (field : option string) (chunk : string) : option string :=
  Some (default EmptyString field +:+ chunk).

(** The ASCII fast path of [Fields]. *)
Fixpoint Fields_ascii (s : string) (field : option string) : list string :=
  match s with
  | EmptyString => flush field
  | String c s' =>
      if asciiSpace (byte_val c) then flush field ++ Fields_ascii s' None
      else Fields_ascii s' (extend field (String c EmptyString))
  end.

(** [FieldsFunc(s, f)]: the loop ranges over the runes of [s]; every turn
    consumes at least one byte, so the length of [s] is fuel enough. *)
Fixpoint FieldsFunc_loop (fuel : nat) (f : Z -> bool) (s : string)
  (field : option string) : list string :=
  match fuel, s with
  | S fuel, String _ _ =>
      let '(r, size) := utf8.DecodeRune s in
      if f r then flush field ++ FieldsFunc_loop fuel f (drop_bytes size s) None
      else FieldsFunc_loop fuel f (drop_bytes size s)
             (extend field (take_bytes size s))
  | _, _ => flush field
  end.

Definition FieldsFunc (s : string) (f : Z -> bool) : list string :=
  FieldsFunc_loop (String.length s) f s None.

(** No byte of [s] has its high bit set ([setBits < utf8.RuneSelf]). *)
Fixpoint is_ascii (s : string) : bool :=
  match s with
  | EmptyString => true
  | String c s' => (byte_val c <? 0x80) && is_ascii s'
  end.

Definition Fields (s : string) : list string :=
  if is_ascii s then Fields_ascii s None else FieldsFunc s isSpace.

End strings.

(** ** package bufio: a Scanner over standard input, splitting lines *)

Module bufio.

Definition MaxScanTokenSize : Z := 64 * 1024.

(** The bytes before the first newline, and what follows that newline when
    there is one. *)
Fixpoint break_line (s : string) : string * option string :=
  match s with
  | EmptyString => (EmptyString, None)
  | String c s' =>
      if Ascii.eqb c LF then (EmptyString, Some s')
      else let '(l, r) := break_line s' in (String c l, r)
  end.

(** [dropCR] drops a terminal carriage return from the data. *)
Fixpoint dropCR (data : string) : string :=
  match data with
  | EmptyString => EmptyString
  | String c rest =>
      match rest with
      | EmptyString => if Ascii.eqb c CR then EmptyString else data
      | String _ _ => String c (dropCR rest)
      end
  end.

(** One call of [Scan] with [ScanLines]: the next line and the input left,
    or the end of the loop with what [Err] then reports.  A line that does
    not fit the buffer with room for its terminator ends the scan with
    [ErrTooLong]; at the end of the input a last line without a newline is
    still a token. *)
Inductive ScanResult :=
| Token (text rest : string)
| Done (err : option error).

Definition Scan (stdin : string) : ScanResult :=
  match stdin with
  | EmptyString => Done None
  | String _ _ =>
      let '(line, rest) := break_line stdin in
      if MaxScanTokenSize <=? Z.of_nat (String.length line) then Done (Some ErrTooLong)
      else Token (dropCR line) (default EmptyString rest)
  end.

End bufio.

(** ** package fmt: [Scanf("%s", &temp)] on standard input

    Standard input is no [io.RuneScanner], so [Scanf] reads it rune by rune
    through a reader of its own that it drops when it returns: the rune it
    read to find the end of the token, and put back into that reader, is
    lost with it. *)

Module fmt.

(** [getRune]: the next rune and the input after it; [None] at the end. *)
Definition getRune (s : string) : option (Z * string) :=
  match s with
  | EmptyString => None
  | String _ _ =>
      let '(r, size) := utf8.DecodeRune s in Some (r, drop_bytes size s)
  end.

(** [peek("\n")]: the next rune is a newline. *)
Definition peek_newline (s : string) : bool :=
  match getRune s with
  | Some (r, _) => r =? 10
  | None => false
  end.

(** [SkipSpace], where a newline is no space ([nlIsSpace] is false for
    [Scanf]): the input from the first rune that is no space on, or the
    error. *)
Fixpoint SkipSpace (fuel : nat) (s : string) : string + error :=
  match fuel with
  | O => inl s
  | S fuel =>
      match getRune s with
      | None => inl s
      | Some (r, s') =>
          if (r =? 13) && peek_newline s' then SkipSpace fuel s'
          else if r =? 10 then inr ErrUnexpectedNewline
          else if negb (isSpace r) then inl s
          else SkipSpace fuel s'
      end
  end.

(** [token(true, notSpace)] after the spaces are skipped: the runes up to
    the next space or the end of the input, written to the buffer, and the
    input left to later readers. *)
Fixpoint token (fuel : nat) (s : string) : string * string :=
  match fuel with
  | O => (EmptyString, s)
  | S fuel =>
      match getRune s with
      | None => (EmptyString, s)
      | Some (r, s') =>
          if isSpace r then (EmptyString, s')
          else let '(t, rest) := token fuel s' in (utf8.EncodeRune r +:+ t, rest)
      end
  end.

(** [n, err := fmt.Scanf("%s", &temp)]: [n], [err], [temp] and the input
    left.  The verb skips spaces, fails with [io.EOF] when no input is
    left, and reads one token. *)
Definition Scanf_s (stdin : string) : Z * option error * string * string :=
  let fuel := String.length stdin in
  match SkipSpace fuel stdin with
  | inr err => (0, Some err, EmptyString, EmptyString)
  | inl s =>
      match s with
      | EmptyString => (0, Some EOF, EmptyString, EmptyString)
      | String _ _ => let '(temp, rest) := token fuel s in (1, None, temp, rest)
      end
  end.

End fmt.

(** ** The data model of [main.go] *)

Definition yes : string := "y".
Definition no : string := "n".

(** A [map[string]any]; [None] is the nil map. *)
Abbreviation variables := (option (gmap string value)).

Module File.
Record t := mk {
  Name : string;
  Path : string;
  Template : string;
  Local : variables
}.
End File.

(** [Args] is never a nil slice in a collected command: it is a slice of
    the fields of a line. *)
Module Command.
Record t := mk {
  Name : string;
  Args : list string
}.
End Command.

(** [Files] and [Cmds] are nil or hold at least one element; both are the
    empty list here. *)
Record Config := {
  Global : variables;
  Files : list File.t;
  Cmds : list Command.t
}.

(** ** Reading standard input: state and errors

    A computation reads from the input that is left and returns a value
    with the input it leaves, or fails with a Go error. *)

Inductive Res (A : Type) :=
| Ok (a : A) (stdin : string)
| Fail (err : error).
Arguments Ok {A} a stdin.
Arguments Fail {A} err.

Definition M (A : Type) : Type := string -> Res A.

#[global] Instance M_ret : MRet M := fun A a stdin => Ok a stdin.

#[global] Instance M_bind : MBind M := fun A B k m stdin =>
  match m stdin with
  | Ok a stdin' => k a stdin'
  | Fail err => Fail err
  end.

(** [if err != nil { return nil, fmt.Errorf("<prefix>: %w", err) }] *)
Definition wrapping {A} (prefix : string) (m : M A) : M A := fun stdin =>
  match m stdin with
  | Ok a stdin' => Ok a stdin'
  | Fail err => Fail (Wrapf prefix err)
  end.

(** ** The functions of [main.go] *)

Definition scan : M string := fun stdin =>
  let '(n, err, temp, rest) := fmt.Scanf_s stdin in
  match err with
  | Some err => Fail err
  | None => if negb (n =? 1) then Fail (ErrTokens n) else Ok temp rest
  end.

(** The loop of [readCommands]; every turn consumes a line, so the length
    of the input bounds the number of turns. *)
Fixpoint readCommands_loop (fuel : nat) (result : list Command.t) : M (list Command.t) :=
  fun stdin =>
  match fuel with
  | O => Ok result stdin
  | S fuel =>
      match bufio.Scan stdin with
      | bufio.Done None => Ok result stdin
      | bufio.Done (Some err) => Fail (Wrapf "read commands" err)
      | bufio.Token text rest =>
          if String.eqb text yes then readCommands_loop fuel result rest
          else if String.eqb text no then Ok result rest
          else
            match strings.Fields text with
            | [] => Fail (Errorf "incorrect command declaration length")
            | name :: args =>
                readCommands_loop fuel (result ++ [Command.mk name args]) rest
            end
      end
  end.

Definition readCommands : M (list Command.t) := fun stdin =>
  readCommands_loop (S (String.length stdin)) [] stdin.

Section Wizard.

(** [strconv.ParseFloat(v, 64)]: the float when [err == nil]. *)
Variable ParseFloat : string -> option float.

Definition format (v : string) : value :=
  match strconv.ParseBool v with
  | Some val => VBool val
  | None =>
      match strconv.ParseInt v 10 64 with
      | (val, None) => VInt val
      | _ =>
          match ParseFloat v with
          | Some val => VFloat val
          | None => VString v
          end
      end
  end.

(** The loop of [processVariables], with the same bound on its turns. *)
Fixpoint processVariables_loop (fuel : nat) (result : variables) : M variables :=
  fun stdin =>
  match fuel with
  | O => Ok result stdin
  | S fuel =>
      match bufio.Scan stdin with
      | bufio.Done None => Ok result stdin
      | bufio.Done (Some err) => Fail (Wrapf "process variables" err)
      | bufio.Token text rest =>
          if String.eqb text yes then processVariables_loop fuel result rest
          else if String.eqb text no then Ok result rest
          else
            match strings.Split text " " with
            | [name; val] =>
                let result := default ∅ result in
                processVariables_loop fuel (Some (<[name := format val]> result)) rest
            | _ => Fail (Errorf "incorrect number of tokens")
            end
      end
  end.

Definition processVariables : M variables := fun stdin =>
  processVariables_loop (S (String.length stdin)) None stdin.

Definition readGlobals : M variables :=
  wrapping "global variables" processVariables.

(** How a turn of the loop of [readFiles] ends. *)
Inductive turn := Continue (result : list File.t) | Break (result : list File.t).

(** The three required fields and the local variables of a file. *)
Definition readFile : M File.t :=
  name ← wrapping "file parameters" scan;
  path ← wrapping "file parameters" scan;
  template ← wrapping "file parameters" scan;
  loc ← wrapping "file parameters" processVariables;
  mret (File.mk name path template loc).

(** One turn of the loop labelled [Cycle] in [readFiles]. *)
Definition readFiles_turn (result : list File.t) : M turn :=
  f ← readFile;
  let result := result ++ [f] in
  answer ← wrapping "file parameters" scan;
  if String.eqb answer yes then mret (Continue result)
  else if String.eqb answer no then mret (Break result)
  else mret (Continue result).

Fixpoint readFiles_loop (fuel : nat) (result : list File.t) : M (list File.t) :=
  match fuel with
  | O => mret result
  | S fuel =>
      t ← readFiles_turn result;
      match t with
      | Continue result => readFiles_loop fuel result
      | Break result => mret result
      end
  end.

Definition readFiles : M (list File.t) := fun stdin =>
  readFiles_loop (S (String.length stdin)) [] stdin.

End Wizard.

(** ** package encoding/json: the document [Encode] writes

    The document is kept as the JSON value it denotes.  A number is kept as
    the Go value whose literal is written: an integer literal for an int64,
    and for a float64 the shortest decimal literal that reads back as the
    same float.  The members of an object are in the order they are
    written. *)

Module json.

#[warnings="-register-all"]
Inductive t :=
| Null
| Bool (b : bool)
| Int (i : Z)
| Float (f : float)
| String (s : string)
| Array (items : list t)
| Object (members : list (string * t)).

(** The string a JSON string literal of the encoder denotes: each byte that
    starts no valid UTF-8 sequence is written as U+FFFD; every other escape
    denotes the bytes it stands for. *)
Fixpoint coerce_loop (fuel : nat) (s : string) : string :=
  match fuel, s with
  | S fuel, String.String _ _ =>
      let '(c, size) := utf8.DecodeRune s in
      (if (c =? utf8.RuneError) && (size =? 1)%nat
       then utf8.EncodeRune utf8.RuneError
       else take_bytes size s) +:+ coerce_loop fuel (drop_bytes size s)
  | _, _ => EmptyString
  end.

Definition coerce (s : string) : string := coerce_loop (String.length s) s.

(** A value held in an [any]; a NaN or an infinity is an
    [UnsupportedValueError]. *)
Definition encode_value (v : value) : option t :=
  match v with
  | VBool b => Some (Bool b)
  | VInt i => Some (Int i)
  | VFloat f => if is_nan f || is_infinity f then None else Some (Float f)
  | VString s => Some (String (coerce s))
  end.

Definition encode_member (kv : string * value) : option (string * t) :=
  j ← encode_value kv.2; Some (coerce kv.1, j).

Definition key_le (x y : string * value) : Prop := String.le x.1 y.1.

(** A [map[string]any]: [null] for the nil map, else an object with the
    keys sorted. *)
Definition encode_variables (m : variables) : option t :=
  match m with
  | None => Some Null
  | Some m =>
      members ← mapM encode_member (merge_sort key_le (map_to_list m));
      Some (Object members)
  end.

Definition encode_File (f : File.t) : option t :=
  loc ← encode_variables (File.Local f);
  Some (Object [("name", String (coerce (File.Name f)));
                ("path", String (coerce (File.Path f)));
                ("template", String (coerce (File.Template f)));
                ("local", loc)]).

Definition encode_Command (c : Command.t) : t :=
  Object [("name", String (coerce (Command.Name c)));
          ("args", Array ((fun a => String (coerce a)) <$> Command.Args c))].

(** A [Config]: the fields tagged [omitempty] are left out when their
    slice is empty. *)
Definition encode_Config (c : Config) : option t :=
  glob ← encode_variables (Global c);
  files ← mapM encode_File (Files c);
  Some (Object ([("global", glob)]
                ++ (if Files c is [] then [] else [("files", Array files)])
                ++ (if Cmds c is [] then []
                    else [("commands", Array (encode_Command <$> Cmds c))]))).

(** *** Reading the document back

    [json.Unmarshal] of a document into a fresh [Config], for the documents
    whose mappings hold scalars.  The target of a value of a mapping is an
    [any]: it receives a bool for a JSON boolean, a float64 for a JSON
    number and a string for a JSON string.  A key that names no field is
    skipped, a later key replaces an earlier one, and [null] sets a map or
    a slice to nil and leaves a string as it is. *)

(** The float64 nearest to an integer of the int64 range. *)
Definition Z_to_float (z : Z) : float :=
  let a := Z.abs z in
  let f :=
    if a <? 2 ^ 63 then PrimFloat.of_uint63 (Uint63.of_Z a)
    else PrimFloat.mul (PrimFloat.of_uint63 (Uint63.of_Z (2 ^ 62)))
                       (PrimFloat.of_uint63 (Uint63.of_Z 2)) in
  if z <? 0 then PrimFloat.opp f else f.

Definition decode_value (j : t) : option value :=
  match j with
  | Bool b => Some (VBool b)
  | Int i => Some (VFloat (Z_to_float i))
  | Float f => Some (VFloat f)
  | String s => Some (VString s)
  | Null | Array _ | Object _ => None
  end.

Definition decode_member (kj : string * t) : option (string * value) :=
  v ← decode_value kj.2; Some (kj.1, v).

Definition store (m : gmap string value) (kv : string * value) : gmap string value :=
  <[kv.1 := kv.2]> m.

Definition decode_variables (old : variables) (j : t) : option variables :=
  match j with
  | Null => Some None
  | Object members =>
      kvs ← mapM decode_member members;
      Some (Some (foldl store (default ∅ old) kvs))
  | _ => None
  end.

Definition decode_string (old : string) (j : t) : option string :=
  match j with
  | Null => Some old
  | String s => Some s
  | _ => None
  end.

(** A slice is set to nil by [null]; the elements of an array are decoded
    into fresh elements. *)
Definition decode_slice {A} (elem : t -> option A) (j : t) : option (list A) :=
  match j with
  | Null => Some []
  | Array items => mapM elem items
  | _ => None
  end.

Definition decode_File_member (acc : option File.t) (kj : string * t) : option File.t :=
  f ← acc;
  if String.eqb kj.1 "name"
  then s ← decode_string (File.Name f) kj.2;
       Some (File.mk s (File.Path f) (File.Template f) (File.Local f))
  else if String.eqb kj.1 "path"
  then s ← decode_string (File.Path f) kj.2;
       Some (File.mk (File.Name f) s (File.Template f) (File.Local f))
  else if String.eqb kj.1 "template"
  then s ← decode_string (File.Template f) kj.2;
       Some (File.mk (File.Name f) (File.Path f) s (File.Local f))
  else if String.eqb kj.1 "local"
  then m ← decode_variables (File.Local f) kj.2;
       Some (File.mk (File.Name f) (File.Path f) (File.Template f) m)
  else Some f.

Definition decode_File (j : t) : option File.t :=
  match j with
  | Object members =>
      foldl decode_File_member
        (Some (File.mk EmptyString EmptyString EmptyString None)) members
  | _ => None
  end.

Definition decode_Command_member (acc : option Command.t) (kj : string * t)
  : option Command.t :=
  c ← acc;
  if String.eqb kj.1 "name"
  then s ← decode_string (Command.Name c) kj.2; Some (Command.mk s (Command.Args c))
  else if String.eqb kj.1 "args"
  then a ← decode_slice (decode_string EmptyString) kj.2; Some (Command.mk (Command.Name c) a)
  else Some c.

Definition decode_Command (j : t) : option Command.t :=
  match j with
  | Object members =>
      foldl decode_Command_member (Some (Command.mk EmptyString [])) members
  | _ => None
  end.

Definition decode_Config_member (acc : option Config) (kj : string * t) : option Config :=
  c ← acc;
  if String.eqb kj.1 "global"
  then m ← decode_variables (Global c) kj.2;
       Some {| Global := m; Files := Files c; Cmds := Cmds c |}
  else if String.eqb kj.1 "files"
  then fs ← decode_slice decode_File kj.2;
       Some {| Global := Global c; Files := fs; Cmds := Cmds c |}
  else if String.eqb kj.1 "commands"
  then cs ← decode_slice decode_Command kj.2;
       Some {| Global := Global c; Files := Files c; Cmds := cs |}
  else Some c.

Definition decode_Config (j : t) : option Config :=
  match j with
  | Object members =>
      foldl decode_Config_member
        (Some {| Global := None; Files := []; Cmds := [] |}) members
  | _ => None
  end.

(** What a value of a mapping reads back as. *)
Definition read_back_value (v : value) : value :=
  match v with
  | VInt i => VFloat (Z_to_float i)
  | _ => v
  end.

Definition read_back_variables (m : variables) : variables :=
  match m with
  | None => None
  | Some m => Some (read_back_value <$> m)
  end.

Definition read_back_File (f : File.t) : File.t :=
  File.mk (File.Name f) (File.Path f) (File.Template f)
    (read_back_variables (File.Local f)).

Definition read_back (c : Config) : Config :=
  {| Global := read_back_variables (Global c);
     Files := read_back_File <$> Files c;
     Cmds := Cmds c |}.

(** The strings the encoder writes as they are: valid UTF-8. *)
Definition clean (s : string) : Prop := coerce s = s.

Definition clean_value (v : value) : Prop :=
  match v with
  | VString s => clean s
  | _ => True
  end.

Definition clean_variables (m : variables) : Prop :=
  match m with
  | None => True
  | Some m => map_Forall (fun k v => clean k ∧ clean_value v) m
  end.

Definition clean_File (f : File.t) : Prop :=
  clean (File.Name f) ∧ clean (File.Path f) ∧ clean (File.Template f)
  ∧ clean_variables (File.Local f).

Definition clean_Command (c : Command.t) : Prop :=
  clean (Command.Name c) ∧ Forall clean (Command.Args c).

Definition clean_Config (c : Config) : Prop :=
  clean_variables (Global c) ∧ Forall clean_File (Files c)
  ∧ Forall clean_Command (Cmds c).

End json.

(** ** [main]

    What the run depends on besides standard input: the output path given
    by the flags [-o] and [--output], whether [os.Create] fails for a path,
    and whether the write of the encoded document fails. *)

Record Env := {
  path : string;
  Create : string -> option error;
  Write : option error
}.

Inductive destination := Stdout | OutputFile (name : string).

Inductive log_line :=
| FailedToProcessConfig (err : error)
| FailedToCreateOutputFile (err : error)
| FailedToProduceOutput (err : error).

(** The result of a run: the exit status of the process, what it logged and
    the document it wrote, if any. *)
Record Outcome := {
  status : Z;
  logged : list log_line;
  written : option (destination * json.t)
}.

(** [json.NewEncoder(f).Encode(output)] *)
Definition Encode (env : Env) (output : Config) : json.t + error :=
  match json.encode_Config output with
  | None => inr UnsupportedValueError
  | Some doc =>
      match Write env with
      | Some err => inr err
      | None => inl doc
      end
  end.

(** The deferred function of [main]; it runs when [main] returns, and not
    when [os.Exit] ends the process.  [log.Fatalln] exits with status 1. *)
Definition produce_output (env : Env) (output : Config) : Outcome :=
  let f :=
    if String.eqb (path env) EmptyString then inl Stdout
    else
      match Create env (path env) with
      | Some err => inr err
      | None => inl (OutputFile (path env))
      end in
  match f with
  | inr err =>
      {| status := 1; logged := [FailedToCreateOutputFile err]; written := None |}
  | inl f =>
      match Encode env output with
      | inr err =>
          {| status := 0; logged := [FailedToProduceOutput err]; written := None |}
      | inl doc => {| status := 0; logged := []; written := Some (f, doc) |}
      end
  end.

(** [log.Printf("failed to process config: %s", err); os.Exit(1)] *)
Definition exit_failure (err : error) : Outcome :=
  {| status := 1; logged := [FailedToProcessConfig err]; written := None |}.

Section Main.

Variable ParseFloat : string -> option float.

Definition main (env : Env) (stdin : string) : Outcome :=
  match readGlobals ParseFloat stdin with
  | Fail err => exit_failure err
  | Ok glob stdin =>
      match readFiles ParseFloat stdin with
      | Fail err => exit_failure err
      | Ok files stdin =>
          match readCommands stdin with
          | Fail err => exit_failure err
          | Ok cmds _ =>
              produce_output env {| Global := glob; Files := files; Cmds := cmds |}
          end
      end
  end.

End Main.

(** ** Vocabulary of the properties *)

Definition is_digit (c : ascii) : bool := (48 <=? byte_val c) && (byte_val c <=? 57).

Fixpoint all_digits (s : string) : bool :=
  match s with
  | EmptyString => true
  | String c s' => is_digit c && all_digits s'
  end.

(** The tokens that match the pattern [^-?\d+$]. *)
Definition is_int_token (tok : string) : bool :=
  match tok with
  | EmptyString => false
  | String c ds =>
      if Ascii.eqb c "-" then negb (String.eqb ds EmptyString) && all_digits ds
      else all_digits tok
  end.

(** The number a string of decimal digits denotes, after [acc]. *)
Fixpoint decimal (ds : string) (acc : Z) : Z :=
  match ds with
  | EmptyString => acc
  | String c ds' => decimal ds' (10 * acc + (byte_val c - 48))
  end.

(** The value of a token that matches the pattern. *)
Definition token_value (tok : string) : Z :=
  match tok with
  | EmptyString => 0
  | String c ds => if Ascii.eqb c "-" then - decimal ds 0 else decimal tok 0
  end.

Definition is_integer (v : value) : Prop := ∃ i, v = VInt i.

(** A line as the operator types it: no newline in it, and short enough
    for the buffer of a Scanner. *)
Fixpoint has_newline (s : string) : bool :=
  match s with
  | EmptyString => false
  | String c s' => Ascii.eqb c LF || has_newline s'
  end.

Definition typed_line (l : string) : Prop :=
  has_newline l = false ∧ Z.of_nat (String.length l) < bufio.MaxScanTokenSize.

(** The three collection stages succeed on the input and collect [c]. *)
Definition collected (ParseFloat : string -> option float) (stdin : string)
  (c : Config) : Prop :=
  ∃ s1 s2 s3,
    readGlobals ParseFloat stdin = Ok (Global c) s1
    ∧ readFiles ParseFloat s1 = Ok (Files c) s2
    ∧ readCommands s2 = Ok (Cmds c) s3.

(** A float parser for the examples: it rejects every string.  The
    examples run on inputs whose values never reach the float parser. *)
Definition no_floats : string -> option float := fun _ => None.

(** The commands a typed line declares: none for the affirmative token,
    else the one made of its fields. *)
Definition command_of_line (l : string) : list Command.t :=
  let text := bufio.dropCR l in
  if String.eqb text yes then []
  else
    match strings.Fields text with
    | [] => []
    | name :: args => [Command.mk name args]
    end.

Definition commands_of (ls : list string) : list Command.t :=
  flat_map command_of_line ls.

(** A typed line the command collector goes on after: the affirmative
    token, or a line with a field that is not the negative token. *)
Definition command_line (l : string) : Prop :=
  typed_line l
  ∧ bufio.dropCR l ≠ no
  ∧ (bufio.dropCR l = yes ∨ strings.Fields (bufio.dropCR l) ≠ []).

(** The files [fs], then what a later run of the collector returns. *)
Definition followed_by (fs : list File.t) (r : Res (list File.t)) : Res (list File.t) :=
  match r with
  | Ok fs' stdin => Ok (fs ++ fs') stdin
  | Fail err => Fail err
  end.

(** The three required fields of a file are there. *)
Definition has_fields (f : File.t) : Prop :=
  File.Name f ≠ EmptyString ∧ File.Path f ≠ EmptyString
  ∧ File.Template f ≠ EmptyString.

(** The read of the name, of the path or of the template fails with [err]. *)
Definition field_failure (stdin : string) (err : error) : Prop :=
  scan stdin = Fail err
  ∨ (∃ name s1, scan stdin = Ok name s1 ∧ scan s1 = Fail err)
  ∨ (∃ name s1 path s2,
        scan stdin = Ok name s1 ∧ scan s1 = Ok path s2 ∧ scan s2 = Fail err).

(** The keys of a JSON object, in the order they are written. *)
Definition keys (j : json.t) : list string :=
  match j with
  | json.Object members => members.*1
  | _ => []
  end.

(** Unfolds the operations of the monad [M]. *)
Ltac unfold_M := unfold mbind, M_bind, mret, M_ret, wrapping in *.

(** The string holds a space byte. *)
Fixpoint has_space (s : string) : bool :=
  match s with
  | EmptyString => false
  | String c s' => Ascii.eqb c " " || has_space s'
  end.

(** The encodings of a sequence of runes, one after the other. *)
Definition encode_runes (rs : list Z) : string :=
  foldr (fun r s => utf8.EncodeRune r +:+ s) EmptyString rs.

(** A single token: at least one rune, and no rune that is white space. *)
Definition single_token (t : string) : Prop :=
  ∃ rs, rs ≠ [] ∧ Forall (fun r => isSpace r = false) rs ∧ t = encode_runes rs.

(** The three required fields of a file are single tokens. *)
Definition has_token_fields (f : File.t) : Prop :=
  single_token (File.Name f) ∧ single_token (File.Path f)
  ∧ single_token (File.Template f).

(** ** Vocabulary of the further properties *)

(** A decimal integer with an optional sign, as [ParseInt] reads it in
    base 10: [+] or [-], then at least one digit. *)
Definition signed_decimal (s : string) : bool :=
  match s with
  | EmptyString => false
  | String c ds =>
      if Ascii.eqb c "+" || Ascii.eqb c "-"
      then negb (String.eqb ds EmptyString) && all_digits ds
      else all_digits s
  end.

Definition signed_value (s : string) : Z :=
  match s with
  | EmptyString => 0
  | String c ds =>
      if Ascii.eqb c "-" then - decimal ds 0
      else if Ascii.eqb c "+" then decimal ds 0
      else decimal s 0
  end.

(** The literals [ParseBool] reads as true, and those it reads as false. *)
Definition true_literals : list string := ["1"; "t"; "T"; "TRUE"; "true"; "True"].
Definition false_literals : list string := ["0"; "f"; "F"; "FALSE"; "false"; "False"].

(** What a typed line adds to the mapping of a variable loop: nothing for
    the affirmative token, else the pair of its two parts. *)
Definition store_line (ParseFloat : string -> option float) (result : variables)
  (l : string) : variables :=
  let text := bufio.dropCR l in
  if String.eqb text yes then result
  else
    match strings.Split text " " with
    | [name; val] => Some (<[name := format ParseFloat val]> (default ∅ result))
    | _ => result
    end.

Definition variables_of (ParseFloat : string -> option float) (ls : list string)
  : variables :=
  foldl (store_line ParseFloat) None ls.

(** A typed line a variable loop goes on after: the affirmative token, or
    a line of two parts around one space that is not the negative token. *)
Definition variable_line (l : string) : Prop :=
  typed_line l
  ∧ bufio.dropCR l ≠ no
  ∧ (bufio.dropCR l = yes
     ∨ ∃ name val, strings.Split (bufio.dropCR l) " " = [name; val]).

(** A typed line a variable loop refuses: no control token, and not two
    parts around one space. *)
Definition malformed_line (l : string) : Prop :=
  typed_line l
  ∧ bufio.dropCR l ≠ yes ∧ bufio.dropCR l ≠ no
  ∧ ∀ name val, strings.Split (bufio.dropCR l) " " ≠ [name; val].

(** A typed line that stops a loop over lines: the negative token, with or
    without a carriage return. *)
Definition stop_line (l : string) : Prop := typed_line l ∧ bufio.dropCR l = no.

(** Decides that a closed line is one a variable loop goes on after. *)
Ltac solve_variable_line :=
  split; [split; vm_compute; congruence|];
  split; [vm_compute; congruence|];
  first [left; vm_compute; reflexivity
        | right; do 2 eexists; vm_compute; reflexivity].

(** Blanks: spaces and tabs only. *)
Fixpoint all_blanks (s : string) : bool :=
  match s with
  | EmptyString => true
  | String c s' => ((byte_val c =? 32) || (byte_val c =? 9)) && all_blanks s'
  end.

(** An ASCII byte that is no white space. *)
Definition word_byte (c : ascii) : bool :=
  (byte_val c <? 0x80) && negb (strings.asciiSpace (byte_val c)).

Fixpoint word_bytes (s : string) : bool :=
  match s with
  | EmptyString => true
  | String c s' => word_byte c && word_bytes s'
  end.

(** A word: at least one byte, all of them ASCII and no white space. *)
Definition ascii_word (t : string) : bool :=
  negb (String.eqb t EmptyString) && word_bytes t.

(** What the operator enters for one file: the three fields and the lines
    of its local variables. *)
Record entry := {
  entry_name : string;
  entry_path : string;
  entry_template : string;
  entry_locals : list string
}.

(** The file the collector makes of an entry. *)
Definition file_of (ParseFloat : string -> option float) (e : entry) : File.t :=
  File.mk (entry_name e) (entry_path e) (entry_template e)
    (variables_of ParseFloat (entry_locals e)).

(** An entry typed a field per line, its variables closed by the negative
    token, then the answer to the question for a next file. *)
Definition entry_input (e : entry) (answer : string) : string :=
  lines ([entry_name e; entry_path e; entry_template e]
         ++ entry_locals e ++ [no; answer]).

(** A session of the file collector: the affirmative token after every
    entry but the last, the negative token after the last. *)
Fixpoint files_input (es : list entry) : string :=
  match es with
  | [] => EmptyString
  | e :: es' =>
      match es' with
      | [] => entry_input e no
      | _ :: _ => entry_input e yes +:+ files_input es'
      end
  end.

Definition good_entry (e : entry) : Prop :=
  ascii_word (entry_name e) = true ∧ ascii_word (entry_path e) = true
  ∧ ascii_word (entry_template e) = true
  ∧ Forall variable_line (entry_locals e).

Ltac solve_good_entry :=
  split; [reflexivity|]; split; [reflexivity|]; split; [reflexivity|];
  repeat (constructor; [solve_variable_line|]); constructor.

(** Where the deferred function of [main] writes when the output file, if
    one is asked for, can be created. *)
Definition output_destination (env : Env) : option destination :=
  if String.eqb (path env) EmptyString then Some Stdout
  else
    match Create env (path env) with
    | Some _ => None
    | None => Some (OutputFile (path env))
    end.

(** The errors a variable loop returns. *)
Definition variables_error (err : error) : Prop :=
  err = Errorf "incorrect number of tokens"
  ∨ err = Wrapf "process variables" ErrTooLong.

(** The errors [scan] returns. *)
Definition scan_error (err : error) : Prop :=
  err = EOF ∨ err = ErrUnexpectedNewline.

(** The errors the three stages of [main] return. *)
Definition stage_error (err : error) : Prop :=
  (∃ e, err = Wrapf "global variables" e ∧ variables_error e)
  ∨ (∃ e, err = Wrapf "file parameters" e ∧ (scan_error e ∨ variables_error e))
  ∨ err = Errorf "incorrect command declaration length"
  ∨ err = Wrapf "read commands" ErrTooLong.


(** No float of the value is a NaN or an infinity. *)
Definition finite_value (v : value) : bool :=
  match v with
  | VFloat f => negb (is_nan f || is_infinity f)
  | _ => true
  end.

Definition finite_variables (m : variables) : Prop :=
  match m with
  | None => True
  | Some m => map_Forall (fun _ v => finite_value v = true) m
  end.

Definition finite_Config (c : Config) : Prop :=
  finite_variables (Global c)
  ∧ Forall (fun f => finite_variables (File.Local f)) (Files c).

(** A float parser for the examples: it accepts the literal [NaN] alone. *)
Definition nan_only : string -> option float :=
  fun s => if String.eqb s "NaN" then Some PrimFloat.nan else None.

(** No command has an empty name or an empty argument. *)
Definition has_name (c : Command.t) : Prop :=
  Command.Name c ≠ EmptyString ∧ Forall (fun a => a ≠ EmptyString) (Command.Args c).

(** The string of [n] bytes [c]. *)
Fixpoint repeat_byte (n : nat) (c : ascii) : string :=
  match n with
  | O => EmptyString
  | S n => String c (repeat_byte n c)
  end.

(** * Properties *)

(** ** Integer tokens and [format] *)

Section Format.

Variable ParseFloat : string -> option float.

Lemma digit_val_digit c :
  is_digit c = true ->
  strconv.digit_val (byte_val c) = Some (byte_val c - 48)
  ∧ 0 <= byte_val c - 48 <= 9.
Proof.
  unfold is_digit, strconv.digit_val. intros H. rewrite H.
  apply andb_true_iff in H as [H1 H2]. split; [reflexivity | lia].
Qed.

Lemma decimal_ge ds :
  all_digits ds = true -> ∀ acc, 0 <= acc -> acc <= decimal ds acc.
Proof.
  induction ds as [|c ds IH]; simpl; intros Hd acc Hacc; [lia|].
  apply andb_true_iff in Hd as [Hc Hd].
  destruct (digit_val_digit c Hc) as [_ Hr].
  specialize (IH Hd (10 * acc + (byte_val c - 48))). lia.
Qed.

(** On a string of digits whose value fits a uint64 the loop of
    [ParseUint] never takes an overflow exit. *)
Lemma ParseUint_loop_decimal ds :
  all_digits ds = true ->
  ∀ n, 0 <= n -> decimal ds n <= strconv.maxUint64 ->
  strconv.ParseUint_loop 10 64 ds n = (decimal ds n, None).
Proof.
  induction ds as [|c ds IH]; simpl; intros Hd n Hn Hmax; [reflexivity|].
  apply andb_true_iff in Hd as [Hc Hd].
  destruct (digit_val_digit c Hc) as [-> Hr].
  pose proof (decimal_ge ds Hd (10 * n + (byte_val c - 48)) ltac:(lia)) as Hge.
  unfold strconv.cutoff, strconv.maxVal, strconv.maxUint64 in *.
  change (2 ^ 64) with 18446744073709551616 in *.
  change ((18446744073709551616 - 1) / 10 + 1) with 1844674407370955162.
  destruct (10 <=? byte_val c - 48) eqn:E1; [lia|].
  destruct (1844674407370955162 <=? n) eqn:E2; [lia|].
  rewrite (Z.mod_small (n * 10)) by lia.
  rewrite (Z.mod_small (n * 10 + _)) by lia.
  destruct (n * 10 + (byte_val c - 48) <? n * 10) eqn:E3; [lia|].
  destruct (18446744073709551616 - 1 <? n * 10 + (byte_val c - 48)) eqn:E4; [lia|].
  simpl. rewrite (Z.mul_comm n 10). apply IH; [assumption | lia | assumption].
Qed.

Lemma ParseUint_decimal ds :
  ds ≠ EmptyString -> all_digits ds = true -> decimal ds 0 <= strconv.maxUint64 ->
  strconv.ParseUint ds 10 64 = (decimal ds 0, None).
Proof.
  intros Hne Hd Hmax. destruct ds as [|c ds]; [congruence|].
  unfold strconv.ParseUint. apply ParseUint_loop_decimal; [assumption | lia | assumption].
Qed.

Lemma int64_small z : - 2 ^ 63 <= z < 2 ^ 63 -> strconv.int64 z = z.
Proof.
  unfold strconv.int64. intros H. rewrite Z.mod_small; lia.
Qed.

(** [ParseInt] reads every token of the pattern that is in range as its
    value. *)
Lemma ParseInt_int_token tok :
  is_int_token tok = true ->
  - 2 ^ 63 <= token_value tok <= 2 ^ 63 - 1 ->
  strconv.ParseInt tok 10 64 = (token_value tok, None).
Proof.
  destruct tok as [|c ds]; [discriminate|].
  unfold is_int_token, token_value, strconv.ParseInt.
  destruct (Ascii.eqb c "-") eqn:Eneg; intros Htok Hrange.
  - apply andb_true_iff in Htok as [Hne Hd].
    rewrite orb_true_r.
    assert (ds ≠ EmptyString) as Hne'.
    { intros ->. discriminate Hne. }
    pose proof (decimal_ge ds Hd 0 ltac:(lia)) as Hge.
    rewrite (ParseUint_decimal ds Hne' Hd)
      by (unfold strconv.maxUint64; lia).
    change (2 ^ (64 - 1)) with (2 ^ 63). cbn [negb andb].
    destruct (2 ^ 63 <? decimal ds 0) eqn:E; [lia|].
    f_equal. destruct (Z.eq_dec (decimal ds 0) (2 ^ 63)) as [->|Hlt].
    + reflexivity.
    + rewrite (int64_small (decimal ds 0)) by lia. apply int64_small. lia.
  - assert (Ascii.eqb c "+" = false) as ->.
    { apply Ascii.eqb_neq. intros ->. discriminate Htok. }
    cbn [orb].
    pose proof (decimal_ge (String c ds) Htok 0 ltac:(lia)) as Hge.
    rewrite (ParseUint_decimal (String c ds)) by
      (try discriminate; try assumption; unfold strconv.maxUint64; lia).
    change (2 ^ (64 - 1)) with (2 ^ 63). cbn [negb andb].
    destruct (2 ^ 63 <=? decimal (String c ds) 0) eqn:E; [lia|].
    f_equal. apply int64_small. lia.
Qed.

(** The only tokens of the pattern among the boolean literals are "0" and
    "1". *)
Lemma ParseBool_int_token tok :
  is_int_token tok = true -> tok ≠ "0" -> tok ≠ "1" ->
  strconv.ParseBool tok = None.
Proof.
  intros Htok H0 H1.
  assert (∀ lit, In lit ["1"; "t"; "T"; "TRUE"; "true"; "True";
                         "0"; "f"; "F"; "FALSE"; "false"; "False"] ->
                 String.eqb tok lit = false) as Hlit.
  { intros lit Hin. apply String.eqb_neq. intros ->.
    simpl in Hin.
    repeat (destruct Hin as [<-|Hin]; [first [congruence | discriminate Htok]|]).
    destruct Hin. }
  unfold strconv.ParseBool, str_in. cbn [existsb].
  rewrite !Hlit by (simpl; tauto). reflexivity.
Qed.

Lemma format_int_token tok :
  is_int_token tok = true ->
  - 2 ^ 63 <= token_value tok <= 2 ^ 63 - 1 ->
  tok ≠ "0" -> tok ≠ "1" ->
  format ParseFloat tok = VInt (token_value tok).
Proof.
  intros Htok Hrange H0 H1. unfold format.
  rewrite (ParseBool_int_token tok Htok H0 H1).
  rewrite (ParseInt_int_token tok Htok Hrange). reflexivity.
Qed.

End Format.

(** ** Lines: [bufio.Scanner] *)

Lemma break_line_length s l r :
  bufio.break_line s = (l, r) ->
  String.length s
  = (String.length l + match r with Some r' => S (String.length r') | None => 0 end)%nat.
Proof.
  revert l r. induction s as [|c s IH]; simpl; intros l r H.
  - inversion H. reflexivity.
  - destruct (Ascii.eqb c LF).
    + inversion H. reflexivity.
    + destruct (bufio.break_line s) as [l' r'] eqn:E. inversion H; subst.
      simpl. rewrite (IH l' r eq_refl). reflexivity.
Qed.

(** A turn of a scanning loop consumes input. *)
Lemma Scan_shrinks s text rest :
  bufio.Scan s = bufio.Token text rest -> (String.length rest < String.length s)%nat.
Proof.
  unfold bufio.Scan. destruct s as [|c s]; [discriminate|].
  destruct (bufio.break_line (String c s)) as [l r] eqn:E.
  destruct (bufio.MaxScanTokenSize <=? _); [discriminate|].
  intros H. inversion H; subst. apply break_line_length in E.
  destruct r as [r'|]; simpl in *; lia.
Qed.

Lemma break_line_typed l rest :
  has_newline l = false ->
  bufio.break_line (l +:+ String LF rest) = (l, Some rest).
Proof.
  induction l as [|c l IH]; simpl; intros H.
  - reflexivity.
  - apply orb_false_iff in H as [Hc Hl]. rewrite Hc, (IH Hl). reflexivity.
Qed.

(** The scanner returns a typed line without its terminator. *)
Lemma Scan_typed_line l rest :
  typed_line l ->
  bufio.Scan (l +:+ String LF rest) = bufio.Token (bufio.dropCR l) rest.
Proof.
  intros [Hnl Hlen]. unfold bufio.Scan.
  rewrite (break_line_typed l rest Hnl).
  destruct (l +:+ String LF rest) eqn:E.
  - destruct l; discriminate E.
  - destruct (bufio.MaxScanTokenSize <=? Z.of_nat (String.length l)) eqn:E'; [lia|].
    reflexivity.
Qed.

Lemma length_append (s1 s2 : string) :
  String.length (s1 +:+ s2) = (String.length s1 + String.length s2)%nat.
Proof. induction s1 as [|c s1 IH]; simpl; [reflexivity | now rewrite IH]. Qed.

Lemma append_assoc (s1 s2 s3 : string) : (s1 +:+ s2) +:+ s3 = s1 +:+ (s2 +:+ s3).
Proof. induction s1 as [|c s1 IH]; simpl; [reflexivity | now rewrite IH]. Qed.

Lemma length_lines ls : (length ls <= String.length (lines ls))%nat.
Proof.
  induction ls as [|l ls IH]; simpl; [lia|].
  rewrite length_append. simpl. lia.
Qed.

(** ** The loop of [readCommands] *)

(** Any fuel above the length of the input gives the same result. *)
Lemma readCommands_loop_fuel f1 :
  ∀ f2 result s,
    (String.length s < f1)%nat -> (String.length s < f2)%nat ->
    readCommands_loop f1 result s = readCommands_loop f2 result s.
Proof.
  induction f1 as [|f1 IH]; intros f2 result s H1 H2; [lia|].
  destruct f2 as [|f2]; [lia|]. simpl.
  destruct (bufio.Scan s) as [text rest|err] eqn:E; [|reflexivity].
  apply Scan_shrinks in E.
  destruct (String.eqb text yes); [apply IH; lia|].
  destruct (String.eqb text no); [reflexivity|].
  destruct (strings.Fields text); [reflexivity|]. apply IH; lia.
Qed.

(** One typed line, read by the loop. *)
Lemma readCommands_loop_line fuel result l rest :
  typed_line l ->
  readCommands_loop (S fuel) result (l +:+ String LF rest)
  = if String.eqb (bufio.dropCR l) yes then readCommands_loop fuel result rest
    else if String.eqb (bufio.dropCR l) no then Ok result rest
    else
      match strings.Fields (bufio.dropCR l) with
      | [] => Fail (Errorf "incorrect command declaration length")
      | name :: args => readCommands_loop fuel (result ++ [Command.mk name args]) rest
      end.
Proof.
  intros Hl. cbn [readCommands_loop]. rewrite (Scan_typed_line l rest Hl). reflexivity.
Qed.

(** The loop reads a run of command lines and goes on with what they
    declare. *)
Lemma readCommands_loop_lines ls :
  ∀ fuel result tail,
    Forall command_line ls ->
    readCommands_loop (length ls + fuel) result (lines ls +:+ tail)
    = readCommands_loop fuel (result ++ commands_of ls) tail.
Proof.
  induction ls as [|l ls IH]; intros fuel result tail Hls.
  - simpl. rewrite app_nil_r. reflexivity.
  - apply Forall_cons in Hls as [(Hl & Hno & Hfields) Hls].
    cbn [lines length Nat.add]. rewrite append_assoc. cbn [String.append].
    rewrite (readCommands_loop_line _ _ l _ Hl).
    unfold commands_of. cbn [flat_map]. unfold command_of_line.
    fold (commands_of ls).
    destruct (String.eqb (bufio.dropCR l) yes) eqn:Ey.
    + rewrite (IH fuel result tail Hls). reflexivity.
    + apply String.eqb_neq in Hno as ->.
      destruct Hfields as [Hy | Hf]; [apply String.eqb_neq in Ey; contradiction|].
      destruct (strings.Fields (bufio.dropCR l)) as [|name args]; [contradiction|].
      rewrite (IH fuel _ tail Hls), <- app_assoc. reflexivity.
Qed.

Lemma readCommands_lines ls tail :
  Forall command_line ls ->
  readCommands (lines ls +:+ tail)
  = readCommands_loop (S (String.length tail)) (commands_of ls) tail.
Proof.
  intros Hls. unfold readCommands.
  pose proof (length_lines ls) as Hlen.
  rewrite length_append.
  replace (S (String.length (lines ls) + String.length tail))
    with (length ls + S (String.length (lines ls) - length ls + String.length tail))%nat
    by lia.
  rewrite (readCommands_loop_lines ls _ [] tail Hls). cbn [app].
  apply readCommands_loop_fuel; lia.
Qed.

Lemma typed_line_no : typed_line no.
Proof. split; [reflexivity | unfold bufio.MaxScanTokenSize; simpl; lia]. Qed.

(** C5: every line of the command input that is no control token is split
    into its fields; the first field is recorded as the name of a command
    and the fields after it, in order, as its arguments.  A run of such
    lines, closed by the negative token or by the end of the input, yields
    the commands of its lines in order; the input of the lines
    [ls -a -l] and [n] yields the one command [ls] with the arguments [-a]
    and [-l]. *)
Theorem readCommands_records_fields :
  (∀ ls rest,
     Forall command_line ls ->
     readCommands (lines ls +:+ lines [no] +:+ rest) = Ok (commands_of ls) rest)
  ∧ (∀ ls,
       Forall command_line ls ->
       readCommands (lines ls) = Ok (commands_of ls) EmptyString)
  ∧ (∀ l name args,
       bufio.dropCR l ≠ yes -> strings.Fields (bufio.dropCR l) = name :: args ->
       command_of_line l = [Command.mk name args])
  ∧ readCommands (lines ["ls -a -l"; "n"])
    = Ok [Command.mk "ls" ["-a"; "-l"]] EmptyString.
Proof.
  split; [|split; [|split]].
  - intros ls rest Hls. rewrite (readCommands_lines ls _ Hls).
    cbn [lines]. rewrite append_assoc. cbn [String.append].
    rewrite (readCommands_loop_line _ _ no _ typed_line_no). reflexivity.
  - intros ls Hls.
    replace (lines ls) with (lines ls +:+ EmptyString)
      by (clear; induction (lines ls); simpl; congruence).
    rewrite (readCommands_lines ls _ Hls). reflexivity.
  - intros l name args Hy Hf. unfold command_of_line.
    apply String.eqb_neq in Hy. rewrite Hy, Hf. reflexivity.
  - vm_compute. reflexivity.
Qed.

(** The example of C5 through the general statement: one command line and
    the negative token. *)
Lemma readCommands_records_fields_witness :
  readCommands (lines ["ls -a -l"] +:+ lines [no] +:+ EmptyString)
  = Ok (commands_of ["ls -a -l"]) EmptyString.
Proof.
  apply (proj1 readCommands_records_fields ["ls -a -l"] EmptyString).
  repeat constructor; vm_compute; congruence.
Defined.

(** A line without fields is neither control token. *)
Lemma no_fields_no_control text :
  strings.Fields text = [] -> String.eqb text yes = false ∧ String.eqb text no = false.
Proof.
  intros H. split; apply String.eqb_neq; intros ->; vm_compute in H; discriminate H.
Qed.

(** Whatever the loop has collected, a line without fields that it reaches
    ends it with the error of the command shape. *)
Lemma readCommands_loop_blank pre blank post :
  Forall (fun l => typed_line l ∧ bufio.dropCR l ≠ no) pre ->
  typed_line blank -> strings.Fields (bufio.dropCR blank) = [] ->
  ∀ fuel result,
    (length pre < fuel)%nat ->
    readCommands_loop fuel result (lines pre +:+ lines [blank] +:+ post)
    = Fail (Errorf "incorrect command declaration length").
Proof.
  intros Hpre Hblank Hfields.
  induction Hpre as [|l pre [Hl Hno] Hpre IH]; intros fuel result Hfuel;
    (destruct fuel as [|fuel]; [simpl in Hfuel; lia|]).
  - cbn [lines]. rewrite !append_assoc. cbn [String.append].
    rewrite (readCommands_loop_line _ _ blank _ Hblank).
    destruct (no_fields_no_control _ Hfields) as [-> ->]. rewrite Hfields. reflexivity.
  - change (lines (l :: pre)) with (l +:+ String LF (lines pre)).
    rewrite (append_assoc l). cbn [String.append].
    rewrite (readCommands_loop_line _ _ l _ Hl).
    simpl in Hfuel.
    destruct (String.eqb (bufio.dropCR l) yes); [apply IH; lia|].
    apply String.eqb_neq in Hno as ->.
    destruct (strings.Fields (bufio.dropCR l)); [reflexivity | apply IH; lia].
Qed.

(** C4: when the globals and the files are collected and the command
    collector then reads, before any negative token, a line that has no
    field, the run fails with the error of the command shape: the process
    logs it, exits with status 1 and writes no document. *)
Theorem empty_command_line_aborts
  (ParseFloat : string -> option float) (env : Env)
  (stdin s1 : string) (glob : variables) (files : list File.t)
  (pre : list string) (blank post : string) :
  readGlobals ParseFloat stdin = Ok glob s1 ->
  readFiles ParseFloat s1 = Ok files (lines pre +:+ lines [blank] +:+ post) ->
  Forall (fun l => typed_line l ∧ bufio.dropCR l ≠ no) pre ->
  typed_line blank -> strings.Fields (bufio.dropCR blank) = [] ->
  readCommands (lines pre +:+ lines [blank] +:+ post)
  = Fail (Errorf "incorrect command declaration length")
  ∧ main ParseFloat env stdin
    = {| status := 1;
         logged := [FailedToProcessConfig (Errorf "incorrect command declaration length")];
         written := None |}.
Proof.
  intros Hglob Hfiles Hpre Hblank Hfields.
  assert (readCommands (lines pre +:+ lines [blank] +:+ post)
          = Fail (Errorf "incorrect command declaration length")) as Hcmds.
  { unfold readCommands.
    apply (readCommands_loop_blank pre blank post Hpre Hblank Hfields).
    pose proof (length_lines pre). rewrite length_append. lia. }
  split; [exact Hcmds|].
  unfold main. rewrite Hglob, Hfiles, Hcmds. reflexivity.
Qed.

(** A session for C4: no globals, one file, the command [ls], then an
    empty line. *)
Lemma empty_command_line_aborts_witness :
  status (main no_floats {| path := EmptyString; Create := fun _ => None; Write := None |}
            (lines ["n"; "a.txt"; "/tmp"; "t1"; "n"; "n"; "ls"; ""; "n"])) = 1.
Proof.
  pose proof (empty_command_line_aborts no_floats
                {| path := EmptyString; Create := fun _ => None; Write := None |}
                (lines ["n"; "a.txt"; "/tmp"; "t1"; "n"; "n"; "ls"; ""; "n"])
                (lines ["a.txt"; "/tmp"; "t1"; "n"; "n"; "ls"; ""; "n"])
                None [File.mk "a.txt" "/tmp" "t1" None]
                ["ls"] "" (lines ["n"])) as H.
  destruct H as [_ H].
  - vm_compute. reflexivity.
  - vm_compute. reflexivity.
  - repeat constructor; vm_compute; congruence.
  - split; vm_compute; congruence.
  - vm_compute. reflexivity.
  - rewrite H. reflexivity.
Defined.

(** ** The loop of [processVariables] *)

Section Variables_loop.

Variable ParseFloat : string -> option float.

Lemma processVariables_loop_fuel f1 :
  ∀ f2 result s,
    (String.length s < f1)%nat -> (String.length s < f2)%nat ->
    processVariables_loop ParseFloat f1 result s
    = processVariables_loop ParseFloat f2 result s.
Proof.
  induction f1 as [|f1 IH]; intros f2 result s H1 H2; [lia|].
  destruct f2 as [|f2]; [lia|]. simpl.
  destruct (bufio.Scan s) as [text rest|err] eqn:E; [|reflexivity].
  apply Scan_shrinks in E.
  destruct (String.eqb text yes); [apply IH; lia|].
  destruct (String.eqb text no); [reflexivity|].
  destruct (strings.Split text " ") as [|name [|val [|]]]; try reflexivity.
  apply IH; lia.
Qed.

(** One typed line, read by the loop. *)
Lemma processVariables_loop_line fuel result l rest :
  typed_line l ->
  processVariables_loop ParseFloat (S fuel) result (l +:+ String LF rest)
  = if String.eqb (bufio.dropCR l) yes
    then processVariables_loop ParseFloat fuel result rest
    else if String.eqb (bufio.dropCR l) no then Ok result rest
    else
      match strings.Split (bufio.dropCR l) " " with
      | [name; val] =>
          processVariables_loop ParseFloat fuel
            (Some (<[name := format ParseFloat val]> (default ∅ result))) rest
      | _ => Fail (Errorf "incorrect number of tokens")
      end.
Proof.
  intros Hl. cbn [processVariables_loop]. rewrite (Scan_typed_line l rest Hl).
  reflexivity.
Qed.

(** The loop never hands input back. *)
Lemma processVariables_loop_shrinks fuel :
  ∀ result s m rest,
    processVariables_loop ParseFloat fuel result s = Ok m rest ->
    (String.length rest <= String.length s)%nat.
Proof.
  induction fuel as [|fuel IH]; intros result s m rest; simpl.
  - intros H. inversion H. lia.
  - destruct (bufio.Scan s) as [text s'|[err|]] eqn:E; try discriminate.
    + apply Scan_shrinks in E.
      destruct (String.eqb text yes).
      { intros H. apply IH in H. lia. }
      destruct (String.eqb text no).
      { intros H. inversion H; subst. lia. }
      destruct (strings.Split text " ") as [|name [|val [|]]]; try discriminate.
      intros H. apply IH in H. lia.
    + intros H. inversion H. lia.
Qed.

(** The mapping is nil until a pair is stored, and never an empty map. *)
Lemma processVariables_loop_not_empty fuel :
  ∀ result s m rest,
    result ≠ Some ∅ ->
    processVariables_loop ParseFloat fuel result s = Ok m rest ->
    m ≠ Some ∅.
Proof.
  induction fuel as [|fuel IH]; intros result s m rest Hres; simpl.
  - intros H. inversion H; subst. exact Hres.
  - destruct (bufio.Scan s) as [text s'|[err|]] eqn:E; try discriminate.
    + destruct (String.eqb text yes); [apply IH; exact Hres|].
      destruct (String.eqb text no).
      { intros H. inversion H; subst. exact Hres. }
      destruct (strings.Split text " ") as [|name [|val [|]]]; try discriminate.
      apply IH. intros H. inversion H as [H']. apply insert_non_empty in H'. exact H'.
    + intros H. inversion H; subst. exact Hres.
Qed.

Lemma processVariables_skips_yes rest :
  processVariables ParseFloat (lines [yes] +:+ rest) = processVariables ParseFloat rest.
Proof.
  unfold processVariables. cbn [lines]. rewrite append_assoc. cbn [String.append].
  rewrite processVariables_loop_line by (split; [reflexivity | vm_compute; reflexivity]).
  cbn [bufio.dropCR yes Ascii.eqb String.eqb Bool.eqb].
  apply processVariables_loop_fuel; rewrite ?length_append; simpl; lia.
Qed.

End Variables_loop.

(** C7: when the first line of the input of a variable loop is the
    affirmative token, the loop skips it and stores nothing for it: the
    result, mapping and input left, is that of the input without the line.
    It holds for the local variables of a file and for the globals. *)
Theorem leading_yes_is_skipped (ParseFloat : string -> option float) (rest : string) :
  processVariables ParseFloat (lines [yes] +:+ rest) = processVariables ParseFloat rest
  ∧ readGlobals ParseFloat (lines [yes] +:+ rest) = readGlobals ParseFloat rest.
Proof.
  split; [apply processVariables_skips_yes|].
  unfold readGlobals, wrapping. rewrite processVariables_skips_yes. reflexivity.
Qed.

(** ** What [format] stores, and the shape of a variable line *)

(** C1, as the code has it: a token that matches [^-?\d+$] and fits an
    int64 is stored as that integer, unless it is one of the boolean
    literals "0" and "1", which [ParseBool] takes first: "1" is stored as
    true and "0" as false, and the session of the lines [x 1] and [n]
    yields the global mapping of x to true. *)
Theorem format_int_token_unless_bool_literal (ParseFloat : string -> option float) :
  (∀ tok,
     is_int_token tok = true ->
     - 2 ^ 63 <= token_value tok <= 2 ^ 63 - 1 ->
     tok ≠ "0" -> tok ≠ "1" ->
     format ParseFloat tok = VInt (token_value tok))
  ∧ format ParseFloat "1" = VBool true
  ∧ format ParseFloat "0" = VBool false
  ∧ readGlobals ParseFloat (lines ["x 1"; "n"])
    = Ok (Some {["x" := VBool true]}) EmptyString.
Proof.
  split; [|split; [|split]].
  - intros tok. apply format_int_token.
  - reflexivity.
  - reflexivity.
  - vm_compute. reflexivity.
Qed.

(** The token "-42" is stored as the integer -42. *)
Lemma format_int_token_unless_bool_literal_witness :
  format no_floats "-42" = VInt (token_value "-42").
Proof.
  apply (proj1 (format_int_token_unless_bool_literal no_floats) "-42").
  - reflexivity.
  - vm_compute. split; discriminate.
  - discriminate.
  - discriminate.
Defined.

(** C1 as stated fails: the token "1" matches the pattern and fits an
    int64, and no float parser makes [format] store an integer for it, nor
    makes the session of the lines [x 1] and [n] map x to the integer 1. *)
Lemma format_one_is_no_integer :
  (¬ ∃ ParseFloat : string -> option float,
       ∀ tok,
         is_int_token tok = true ->
         - 2 ^ 63 <= token_value tok <= 2 ^ 63 - 1 ->
         is_integer (format ParseFloat tok))
  ∧ (¬ ∃ ParseFloat : string -> option float,
         readGlobals ParseFloat (lines ["x 1"; "n"])
         = Ok (Some {["x" := VInt 1]}) EmptyString).
Proof.
  split.
  - intros [ParseFloat H].
    destruct (H "1" eq_refl) as [i Hi].
    + vm_compute. split; discriminate.
    + discriminate Hi.
  - intros [ParseFloat H].
    assert (Some (VBool true) = Some (VInt 1)) as Habs; [|discriminate Habs].
    change (match readGlobals ParseFloat (lines ["x 1"; "n"]) with
            | Ok (Some m) _ => m !! "x"
            | _ => None
            end = Some (VInt 1)).
    rewrite H. reflexivity.
Qed.

(** ** Parts: [strings.Split] on the space *)

Lemma Split_not_nil s sep : strings.Split s sep ≠ [].
Proof.
  destruct s as [|c s]; simpl; [discriminate|].
  destruct (Ascii.eqb c sep); [discriminate|].
  destruct (strings.Split s sep); discriminate.
Qed.

(** One part: the string has no space. *)
Lemma Split_one s :
  ∀ p, strings.Split s " " = [p] ↔ s = p ∧ has_space p = false.
Proof.
  induction s as [|c s IH]; intros p; simpl.
  - split; [intros H; inversion H; auto | intros [<- _]; reflexivity].
  - destruct (Ascii.eqb c " ") eqn:Ec.
    + split.
      * intros H. inversion H as [[Hp Hs]]. destruct (Split_not_nil _ _ Hs).
      * intros [<- Hsp]. simpl in Hsp. rewrite Ec in Hsp. discriminate Hsp.
    + destruct (strings.Split s " ") as [|q qs] eqn:Es;
        [destruct (Split_not_nil _ _ Es)|].
      split.
      * intros H. inversion H; subst.
        destruct (proj1 (IH q) eq_refl) as [-> Hq].
        split; [reflexivity | simpl; rewrite Ec; exact Hq].
      * intros [<- Hsp]. simpl in Hsp. rewrite Ec in Hsp. simpl in Hsp.
        pose proof (proj2 (IH s) (conj eq_refl Hsp)) as E. inversion E; subst.
        reflexivity.
Qed.

(** Two parts: the string has exactly one space; either part may be
    empty. *)
Lemma Split_two s :
  ∀ name val,
    strings.Split s " " = [name; val]
    ↔ s = name +:+ String " " val ∧ has_space name = false ∧ has_space val = false.
Proof.
  induction s as [|c s IH]; intros name val; simpl.
  - split; [discriminate|]. intros [H _]. destruct name; discriminate H.
  - destruct (Ascii.eqb c " ") eqn:Ec.
    + apply Ascii.eqb_eq in Ec as ->. split.
      * intros H. inversion H as [[Hn Hs]]. apply Split_one in Hs as [-> Hv].
        repeat split; assumption.
      * intros (H & Hn & Hv). destruct name as [|c' name].
        -- simpl in H. inversion H; subst.
           rewrite (proj2 (Split_one val val) (conj eq_refl Hv)). reflexivity.
        -- simpl in H. inversion H; subst. simpl in Hn. discriminate Hn.
    + destruct (strings.Split s " ") as [|q qs] eqn:Es;
        [destruct (Split_not_nil _ _ Es)|].
      split.
      * intros H. inversion H; subst.
        destruct (proj1 (IH q val) eq_refl) as (-> & Hq & Hv).
        repeat split; [simpl; rewrite Ec; exact Hq | exact Hv].
      * intros (H & Hn & Hv). destruct name as [|c' name].
        -- simpl in H. inversion H; subst. discriminate Ec.
        -- simpl in H. inversion H; subst. simpl in Hn. rewrite Ec in Hn.
           simpl in Hn.
           pose proof (proj2 (IH name val) (conj eq_refl (conj Hn Hv))) as E.
           inversion E; subst. reflexivity.
Qed.

(** C2, what the code does: a line that is no control token is accepted
    exactly when [strings.Split] on the space gives two parts, that is when
    it holds exactly one space byte, and either part may be empty.  So the
    line of a space and [7] has the single field [7], yet the loop stores 7
    under the empty name; and the line of [a], two spaces and [7] has two
    fields and is refused. *)
Lemma processVariables_splits_on_single_spaces (ParseFloat : string -> option float) :
  (∀ text name val,
     strings.Split text " " = [name; val]
     ↔ text = name +:+ String " " val
       ∧ has_space name = false ∧ has_space val = false)
  ∧ (∀ fuel result l rest,
       typed_line l -> bufio.dropCR l ≠ yes -> bufio.dropCR l ≠ no ->
       processVariables_loop ParseFloat (S fuel) result (l +:+ String LF rest)
       = match strings.Split (bufio.dropCR l) " " with
         | [name; val] =>
             processVariables_loop ParseFloat fuel
               (Some (<[name := format ParseFloat val]> (default ∅ result))) rest
         | _ => Fail (Errorf "incorrect number of tokens")
         end)
  ∧ strings.Fields " 7" = ["7"]
  ∧ processVariables ParseFloat (lines [" 7"; "n"])
    = Ok (Some {["" := VInt 7]}) EmptyString
  ∧ strings.Fields "a  7" = ["a"; "7"]
  ∧ processVariables ParseFloat (lines ["a  7"; "n"])
    = Fail (Errorf "incorrect number of tokens").
Proof.
  split; [exact Split_two|]. split.
  - intros fuel result l rest Hl Hy Hn.
    rewrite (processVariables_loop_line ParseFloat fuel result l rest Hl).
    apply String.eqb_neq in Hy, Hn. rewrite Hy, Hn. reflexivity.
  - repeat split; vm_compute; reflexivity.
Qed.

(** The line of a space and [7], read by one turn of the loop. *)
Lemma processVariables_splits_on_single_spaces_witness :
  processVariables_loop no_floats 1 None (" 7" +:+ String LF EmptyString)
  = Ok (Some {["" := VInt 7]}) EmptyString.
Proof.
  rewrite (proj1 (proj2 (processVariables_splits_on_single_spaces no_floats))
             O None " 7" EmptyString).
  - vm_compute. reflexivity.
  - split; vm_compute; reflexivity.
  - discriminate.
  - discriminate.
Defined.

(** ** Tokens: [fmt.Scanf] and [scan] *)

Lemma first_size p0 sz lo hi :
  utf8.first p0 = Some (sz, lo, hi) -> (2 <= sz <= 4)%nat.
Proof.
  unfold utf8.first.
  repeat match goal with
         | |- context [if ?b then _ else _] => destruct b
         end; intros H; inversion H; lia.
Qed.

(** A rune of a string that is not empty is one to four of its bytes. *)
Lemma DecodeRune_size c s :
  (1 <= (utf8.DecodeRune (String c s)).2 <= String.length (String c s))%nat.
Proof.
  unfold utf8.DecodeRune.
  destruct (byte_val c <? 128); [simpl; lia|].
  destruct (utf8.first (byte_val c)) as [[[sz lo] hi]|] eqn:F; [|simpl; lia].
  apply first_size in F.
  destruct (Nat.ltb_spec (String.length (String c s)) sz) as [Hlt|Hge]; [simpl; lia|].
  destruct (_ || _); [simpl; lia|].
  destruct (Nat.leb_spec sz 2); [simpl in *; lia|].
  destruct (negb _); [simpl; lia|].
  destruct (Nat.leb_spec sz 3); [simpl in *; lia|].
  destruct (negb _); simpl in *; lia.
Qed.

Lemma length_drop_bytes n :
  ∀ s, (n <= String.length s)%nat ->
       String.length (drop_bytes n s) = (String.length s - n)%nat.
Proof.
  induction n as [|n IH]; intros s H; simpl.
  - lia.
  - destruct s as [|c s]; simpl in *; [lia | apply IH; lia].
Qed.

Lemma getRune_shrinks s r s' :
  fmt.getRune s = Some (r, s') -> (String.length s' < String.length s)%nat.
Proof.
  unfold fmt.getRune. destruct s as [|c s]; [discriminate|].
  pose proof (DecodeRune_size c s) as Hsize.
  destruct (utf8.DecodeRune (String c s)) as [r0 size]. simpl in Hsize.
  intros H. inversion H; subst. rewrite length_drop_bytes; simpl; lia.
Qed.

(** The length of the input is fuel enough for the two loops of
    [Scanf_s]: more fuel changes nothing. *)
Lemma SkipSpace_fuel f1 :
  ∀ f2 s,
    (String.length s <= f1)%nat -> (String.length s <= f2)%nat ->
    fmt.SkipSpace f1 s = fmt.SkipSpace f2 s.
Proof.
  induction f1 as [|f1 IH]; intros [|f2] s H1 H2; simpl; try reflexivity.
  - destruct s; [reflexivity | simpl in H1; lia].
  - destruct s; [reflexivity | simpl in H2; lia].
  - destruct (fmt.getRune s) as [[r s']|] eqn:E; [|reflexivity].
    apply getRune_shrinks in E.
    rewrite (IH f2 s') by lia. reflexivity.
Qed.

Lemma token_fuel f1 :
  ∀ f2 s,
    (String.length s <= f1)%nat -> (String.length s <= f2)%nat ->
    fmt.token f1 s = fmt.token f2 s.
Proof.
  induction f1 as [|f1 IH]; intros [|f2] s H1 H2; simpl; try reflexivity.
  - destruct s; [reflexivity | simpl in H1; lia].
  - destruct s; [reflexivity | simpl in H2; lia].
  - destruct (fmt.getRune s) as [[r s']|] eqn:E; [|reflexivity].
    apply getRune_shrinks in E.
    rewrite (IH f2 s') by lia. reflexivity.
Qed.

(** Where [SkipSpace] stops without an error, the input is at its end or a
    rune that is no space comes next. *)
Lemma SkipSpace_stops fuel :
  ∀ s s1,
    (String.length s <= fuel)%nat ->
    fmt.SkipSpace fuel s = inl s1 ->
    (String.length s1 <= String.length s)%nat
    ∧ (s1 = EmptyString ∨ ∃ r s', fmt.getRune s1 = Some (r, s') ∧ isSpace r = false).
Proof.
  induction fuel as [|fuel IH]; intros s s1 Hfuel; simpl.
  - intros H. inversion H; subst. split; [lia|]. left.
    destruct s1; [reflexivity | simpl in Hfuel; lia].
  - destruct (fmt.getRune s) as [[r s']|] eqn:E.
    + pose proof (getRune_shrinks _ _ _ E) as Hs.
      destruct ((r =? 13) && fmt.peek_newline s').
      { intros H. apply IH in H; [|lia]. destruct H as [H1 H2]. split; [lia | exact H2]. }
      destruct (r =? 10); [discriminate|].
      destruct (isSpace r) eqn:Esp; simpl.
      { intros H. apply IH in H; [|lia]. destruct H as [H1 H2]. split; [lia | exact H2]. }
      intros H. inversion H; subst. split; [lia|]. right. eauto.
    + intros H. inversion H; subst. split; [lia|]. left.
      destruct s1; [reflexivity|].
      unfold fmt.getRune in E. destruct (utf8.DecodeRune _). discriminate E.
Qed.

Lemma token_shrinks fuel :
  ∀ s t rest, fmt.token fuel s = (t, rest) -> (String.length rest <= String.length s)%nat.
Proof.
  induction fuel as [|fuel IH]; intros s t rest; simpl.
  - intros H. inversion H. lia.
  - destruct (fmt.getRune s) as [[r s']|] eqn:E.
    + apply getRune_shrinks in E. destruct (isSpace r).
      * intros H. inversion H; subst. lia.
      * destruct (fmt.token fuel s') as [t' rest'] eqn:Et. apply IH in Et.
        intros H. inversion H; subst. lia.
    + intros H. inversion H. lia.
Qed.

Lemma EncodeRune_not_empty r : utf8.EncodeRune r ≠ EmptyString.
Proof.
  unfold utf8.EncodeRune.
  repeat match goal with
         | |- context [if ?b then _ else _] => destruct b
         end; discriminate.
Qed.

(** A token that starts at a rune that is no space has a byte. *)
Lemma token_not_empty fuel s r s' t rest :
  fmt.getRune s = Some (r, s') -> isSpace r = false ->
  fmt.token (S fuel) s = (t, rest) ->
  t ≠ EmptyString ∧ (String.length rest < String.length s)%nat.
Proof.
  intros E Hsp. cbn [fmt.token]. rewrite E, Hsp.
  destruct (fmt.token fuel s') as [t' rest'] eqn:Et.
  apply token_shrinks in Et. apply getRune_shrinks in E.
  intros H. inversion H; subst. split; [|lia].
  pose proof (EncodeRune_not_empty r).
  destruct (utf8.EncodeRune r); [congruence | discriminate].
Qed.

(** [scan] returns a token that is not empty, and consumes input. *)
Lemma scan_token s tok rest :
  scan s = Ok tok rest ->
  tok ≠ EmptyString ∧ (String.length rest < String.length s)%nat.
Proof.
  unfold scan, fmt.Scanf_s.
  destruct (fmt.SkipSpace (String.length s) s) as [s1|err] eqn:Esk; [|discriminate].
  apply SkipSpace_stops in Esk as [Hlen Hs1]; [|lia].
  destruct s1 as [|c s1]; [discriminate|].
  destruct Hs1 as [Hs1 | (r & s' & Hr & Hsp)]; [discriminate|].
  destruct (String.length s) as [|fuel] eqn:El; [simpl in Hlen; lia|].
  destruct (fmt.token (S fuel) (String c s1)) as [t rest'] eqn:Et.
  destruct (token_not_empty _ _ _ _ _ _ Hr Hsp Et) as [Hne Hlt].
  cbn [Z.eqb negb Pos.eqb]. intros H. inversion H; subst. split; [assumption | lia].
Qed.

(** What [token] writes: the runes it read, none of which is a space. *)
Lemma token_runes fuel :
  ∀ s t rest,
    fmt.token fuel s = (t, rest) ->
    ∃ rs, Forall (fun r => isSpace r = false) rs ∧ t = encode_runes rs.
Proof.
  induction fuel as [|fuel IH]; intros s t rest; simpl.
  - intros H. inversion H. exists []. split; [constructor | reflexivity].
  - destruct (fmt.getRune s) as [[r s']|] eqn:E.
    + destruct (isSpace r) eqn:Esp.
      * intros H. inversion H. exists []. split; [constructor | reflexivity].
      * destruct (fmt.token fuel s') as [t' rest'] eqn:Et.
        apply IH in Et as (rs & Hrs & ->).
        intros H. inversion H; subst. exists (r :: rs).
        split; [constructor; assumption | reflexivity].
    + intros H. inversion H. exists []. split; [constructor | reflexivity].
Qed.

(** [scan] returns a single token. *)
Lemma scan_single_token s tok rest : scan s = Ok tok rest -> single_token tok.
Proof.
  intros H. pose proof (scan_token s tok rest H) as [Hne _].
  unfold scan, fmt.Scanf_s in H.
  destruct (fmt.SkipSpace (String.length s) s) as [s1|err]; [|discriminate].
  destruct s1 as [|c s1]; [discriminate|].
  destruct (fmt.token (String.length s) (String c s1)) as [t rest'] eqn:Et.
  cbn [Z.eqb negb Pos.eqb] in H. inversion H; subst.
  apply token_runes in Et as (rs & Hrs & ->).
  exists rs. repeat split; [|assumption].
  intros ->. apply Hne. reflexivity.
Qed.

(** ** The loop of [readFiles] *)

Section Files_loop.

Variable ParseFloat : string -> option float.

(** A file that is read has its three fields from three tokens, in order,
    and its local variables from the variable loop. *)
Lemma readFile_ok s f s' :
  readFile ParseFloat s = Ok f s' ->
  ∃ s1 s2 s3,
    scan s = Ok (File.Name f) s1 ∧ scan s1 = Ok (File.Path f) s2
    ∧ scan s2 = Ok (File.Template f) s3
    ∧ processVariables ParseFloat s3 = Ok (File.Local f) s'.
Proof.
  unfold readFile. unfold_M.
  destruct (scan s) as [name s1|] eqn:E1; [|discriminate].
  destruct (scan s1) as [path s2|] eqn:E2; [|discriminate].
  destruct (scan s2) as [template s3|] eqn:E3; [|discriminate].
  destruct (processVariables ParseFloat s3) as [loc s4|] eqn:E4; [|discriminate].
  intros H. inversion H; subst. simpl. eauto 10.
Qed.

Lemma readFile_field_failure s err :
  field_failure s err ->
  readFile ParseFloat s = Fail (Wrapf "file parameters" err).
Proof.
  unfold readFile. unfold_M.
  intros [H | [(name & s1 & H1 & H) | (name & s1 & path & s2 & H1 & H2 & H)]].
  - rewrite H. reflexivity.
  - rewrite H1, H. reflexivity.
  - rewrite H1, H2, H. reflexivity.
Qed.

Lemma readFile_shrinks s f s' :
  readFile ParseFloat s = Ok f s' -> (String.length s' < String.length s)%nat.
Proof.
  intros H. apply readFile_ok in H as (s1 & s2 & s3 & H1 & H2 & H3 & H4).
  apply scan_token in H1 as [_ H1]. apply scan_token in H2 as [_ H2].
  apply scan_token in H3 as [_ H3].
  apply processVariables_loop_shrinks in H4. lia.
Qed.

Lemma readFile_has_fields s f s' :
  readFile ParseFloat s = Ok f s' -> has_fields f ∧ has_token_fields f.
Proof.
  intros H. apply readFile_ok in H as (s1 & s2 & s3 & H1 & H2 & H3 & _).
  split.
  - apply scan_token in H1 as [H1 _]. apply scan_token in H2 as [H2 _].
    apply scan_token in H3 as [H3 _]. repeat split; assumption.
  - apply scan_single_token in H1, H2, H3. repeat split; assumption.
Qed.

(** A turn that reads a file and an answer. *)
Lemma readFiles_turn_answer result s f s1 answer s2 :
  readFile ParseFloat s = Ok f s1 -> scan s1 = Ok answer s2 ->
  readFiles_turn ParseFloat result s
  = Ok (if String.eqb answer no then Break (result ++ [f])
        else Continue (result ++ [f])) s2.
Proof.
  intros Hf Ha. unfold readFiles_turn. unfold_M. rewrite Hf, Ha.
  destruct (String.eqb answer yes) eqn:Ey.
  - apply String.eqb_eq in Ey as ->. reflexivity.
  - destruct (String.eqb answer no); reflexivity.
Qed.

Lemma readFiles_turn_ok result s t s2 :
  readFiles_turn ParseFloat result s = Ok t s2 ->
  ∃ f s1 answer,
    readFile ParseFloat s = Ok f s1 ∧ scan s1 = Ok answer s2
    ∧ t = if String.eqb answer no then Break (result ++ [f])
          else Continue (result ++ [f]).
Proof.
  intros H.
  destruct (readFile ParseFloat s) as [f s1|] eqn:Hf.
  - destruct (scan s1) as [answer s2'|] eqn:Ha.
    + rewrite (readFiles_turn_answer result s f s1 answer s2' Hf Ha) in H.
      inversion H; subst. eauto 10.
    + unfold readFiles_turn in H. unfold_M. rewrite Hf, Ha in H. discriminate H.
  - unfold readFiles_turn in H. unfold_M. rewrite Hf in H. discriminate H.
Qed.

Lemma readFiles_loop_fuel f1 :
  ∀ f2 result s,
    (String.length s < f1)%nat -> (String.length s < f2)%nat ->
    readFiles_loop ParseFloat f1 result s = readFiles_loop ParseFloat f2 result s.
Proof.
  induction f1 as [|f1 IH]; intros f2 result s H1 H2; [lia|].
  destruct f2 as [|f2]; [lia|]. cbn [readFiles_loop]. unfold mbind, M_bind.
  destruct (readFiles_turn ParseFloat result s) as [t s2|] eqn:Et; [|reflexivity].
  apply readFiles_turn_ok in Et as (f & s1 & answer & Hf & Ha & ->).
  apply readFile_shrinks in Hf. apply scan_token in Ha as [_ Ha].
  destruct (String.eqb answer no); [reflexivity | apply IH; lia].
Qed.

(** The files collected so far stay in front of what the loop adds. *)
Lemma readFiles_loop_followed_by fuel :
  ∀ r1 r2 s,
    readFiles_loop ParseFloat fuel (r1 ++ r2) s
    = followed_by r1 (readFiles_loop ParseFloat fuel r2 s).
Proof.
  induction fuel as [|fuel IH]; intros r1 r2 s; [reflexivity|].
  cbn [readFiles_loop]. unfold mbind, M_bind.
  destruct (readFile ParseFloat s) as [f s1|] eqn:Hf.
  - destruct (scan s1) as [answer s2|] eqn:Ha.
    + rewrite !(readFiles_turn_answer _ s f s1 answer s2 Hf Ha).
      destruct (String.eqb answer no).
      * unfold mret, M_ret. simpl. rewrite app_assoc. reflexivity.
      * rewrite <- app_assoc. apply IH.
    + unfold readFiles_turn. unfold_M. rewrite Hf, Ha. reflexivity.
  - unfold readFiles_turn. unfold_M. rewrite Hf. reflexivity.
Qed.

Lemma readFiles_loop_has_fields fuel :
  ∀ result s fs rest,
    Forall (fun f => has_fields f ∧ has_token_fields f) result ->
    readFiles_loop ParseFloat fuel result s = Ok fs rest ->
    Forall (fun f => has_fields f ∧ has_token_fields f) fs.
Proof.
  induction fuel as [|fuel IH]; intros result s fs rest Hres.
  - intros H. inversion H; subst. exact Hres.
  - cbn [readFiles_loop]. unfold mbind, M_bind.
    destruct (readFiles_turn ParseFloat result s) as [t s2|] eqn:Et; [|discriminate].
    apply readFiles_turn_ok in Et as (f & s1 & answer & Hf & Ha & ->).
    apply readFile_has_fields in Hf.
    assert (Forall (fun f => has_fields f ∧ has_token_fields f) (result ++ [f]))
      as Hres'.
    { apply Forall_app. split; [exact Hres | repeat constructor; apply Hf]. }
    destruct (String.eqb answer no).
    + intros H. inversion H; subst. exact Hres'.
    + apply IH. exact Hres'.
Qed.

(** The collector after its first file and the answer to the question
    whether to add the next one. *)
Lemma readFiles_first_file s f s1 answer s2 :
  readFile ParseFloat s = Ok f s1 -> scan s1 = Ok answer s2 ->
  readFiles ParseFloat s
  = if String.eqb answer no then Ok [f] s2
    else followed_by [f] (readFiles ParseFloat s2).
Proof.
  intros Hf Ha.
  assert (readFiles ParseFloat s
          = match readFiles_turn ParseFloat [] s with
            | Ok (Continue result) s' =>
                readFiles_loop ParseFloat (String.length s) result s'
            | Ok (Break result) s' => Ok result s'
            | Fail err => Fail err
            end) as ->.
  { unfold readFiles. cbn [readFiles_loop]. unfold mbind, M_bind.
    destruct (readFiles_turn ParseFloat [] s) as [[?|?] ?|]; reflexivity. }
  rewrite (readFiles_turn_answer [] s f s1 answer s2 Hf Ha).
  destruct (String.eqb answer no); [reflexivity|].
  cbn [app]. rewrite (readFiles_loop_followed_by _ [f] [] s2).
  f_equal. unfold readFiles. apply readFiles_loop_fuel; [|lia].
  apply readFile_shrinks in Hf. apply scan_token in Ha as [_ Ha]. lia.
Qed.

End Files_loop.

(** A run of the collector that succeeds has read at least one file: the
    loop asks for a file before it asks whether to add one. *)
Lemma readFiles_not_empty (ParseFloat : string -> option float) s fs rest :
  readFiles ParseFloat s = Ok fs rest -> fs ≠ [].
Proof.
  intros H.
  destruct (readFile ParseFloat s) as [f s1|err] eqn:Hf.
  - destruct (scan s1) as [answer s2|err] eqn:Ha.
    + rewrite (readFiles_first_file ParseFloat s f s1 answer s2 Hf Ha) in H.
      destruct (String.eqb answer no); [inversion H; discriminate|].
      destruct (readFiles ParseFloat s2); [inversion H; discriminate | discriminate H].
    + unfold readFiles in H. cbn [readFiles_loop] in H.
      unfold readFiles_turn in H. unfold_M. rewrite Hf, Ha in H. discriminate H.
  - unfold readFiles in H. cbn [readFiles_loop] in H.
    unfold readFiles_turn in H. unfold_M. rewrite Hf in H. discriminate H.
Qed.

(** C6: every file of a sequence the collector returns has a name, a path
    and a template that are not empty, each a single token: runes without
    white space; each is the token of one [scan], in this order, before
    the local variables; and when the read of one of the three fails, the
    collector returns the error and no sequence, whatever it had
    collected, and the run exits with status 1 and writes no document. *)
Theorem collected_files_have_fields (ParseFloat : string -> option float) :
  (∀ stdin fs rest,
     readFiles ParseFloat stdin = Ok fs rest ->
     Forall (fun f => has_fields f ∧ has_token_fields f) fs)
  ∧ (∀ stdin f rest,
       readFile ParseFloat stdin = Ok f rest ->
       ∃ s1 s2 s3,
         scan stdin = Ok (File.Name f) s1 ∧ scan s1 = Ok (File.Path f) s2
         ∧ scan s2 = Ok (File.Template f) s3
         ∧ processVariables ParseFloat s3 = Ok (File.Local f) rest)
  ∧ (∀ fuel result stdin err,
       field_failure stdin err ->
       readFiles_loop ParseFloat (S fuel) result stdin
       = Fail (Wrapf "file parameters" err))
  ∧ (∀ env stdin glob s1 err,
       readGlobals ParseFloat stdin = Ok glob s1 ->
       readFiles ParseFloat s1 = Fail err ->
       main ParseFloat env stdin
       = {| status := 1; logged := [FailedToProcessConfig err]; written := None |}).
Proof.
  split; [|split; [|split]].
  - intros stdin fs rest H.
    apply (readFiles_loop_has_fields ParseFloat (S (String.length stdin)) [] stdin fs rest);
      [constructor | exact H].
  - intros stdin f rest. apply readFile_ok.
  - intros fuel result stdin err H. cbn [readFiles_loop].
    unfold readFiles_turn. unfold mbind, M_bind.
    rewrite (readFile_field_failure ParseFloat stdin err H). reflexivity.
  - intros env stdin glob s1 err Hg Hf. unfold main. rewrite Hg, Hf. reflexivity.
Qed.

(** A session for C6: one file, no local variables, no further file. *)
Lemma collected_files_have_fields_witness :
  Forall (fun f => has_fields f ∧ has_token_fields f)
    [File.mk "a.txt" "/tmp" "t1" None].
Proof.
  apply (proj1 (collected_files_have_fields no_floats)
           (lines ["a.txt"; "/tmp"; "t1"; "n"; "n"])
           [File.mk "a.txt" "/tmp" "t1" None] EmptyString).
  vm_compute. reflexivity.
Defined.

(** C8: after a file is read and appended, the answer to the question
    whether to add the next file decides how the collector goes on.  The
    negative token ends it with the sequence collected.  The affirmative
    token starts the next turn from the file name.  Any other token does
    the same: it is not an error, it ends nothing and it adds no file of
    its own; the files of the later turns follow the one just read. *)
Theorem next_file_answer (ParseFloat : string -> option float)
  (stdin : string) (f : File.t) (s1 answer s2 : string) :
  readFile ParseFloat stdin = Ok f s1 ->
  scan s1 = Ok answer s2 ->
  (answer = no -> readFiles ParseFloat stdin = Ok [f] s2)
  ∧ (answer = yes ->
     readFiles ParseFloat stdin = followed_by [f] (readFiles ParseFloat s2))
  ∧ (answer ≠ no -> answer ≠ yes ->
     readFiles ParseFloat stdin = followed_by [f] (readFiles ParseFloat s2)).
Proof.
  intros Hf Ha.
  pose proof (readFiles_first_file ParseFloat stdin f s1 answer s2 Hf Ha) as H.
  split; [|split].
  - intros ->. exact H.
  - intros ->. exact H.
  - intros Hno _. apply String.eqb_neq in Hno. rewrite Hno in H. exact H.
Qed.

(** A session for C8: the answer [maybe] after the first file; the
    collector goes on with a second file. *)
Lemma next_file_answer_witness :
  readFiles no_floats
    (lines ["a.txt"; "/tmp"; "t1"; "n"; "maybe"; "b.txt"; "/b"; "t2"; "n"; "n"])
  = Ok [File.mk "a.txt" "/tmp" "t1" None; File.mk "b.txt" "/b" "t2" None] EmptyString.
Proof.
  pose proof (next_file_answer no_floats
                (lines ["a.txt"; "/tmp"; "t1"; "n"; "maybe"; "b.txt"; "/b"; "t2"; "n"; "n"])
                (File.mk "a.txt" "/tmp" "t1" None)
                (lines ["maybe"; "b.txt"; "/b"; "t2"; "n"; "n"])
                "maybe"
                (lines ["b.txt"; "/b"; "t2"; "n"; "n"])) as H.
  destruct H as (_ & _ & H).
  - vm_compute. reflexivity.
  - vm_compute. reflexivity.
  - rewrite H; [vm_compute; reflexivity | discriminate | discriminate].
Defined.

(** ** [main] after the collection *)

Lemma main_collected (ParseFloat : string -> option float) env stdin c :
  collected ParseFloat stdin c ->
  main ParseFloat env stdin = produce_output env c.
Proof.
  intros (s1 & s2 & s3 & Hg & Hf & Hc). unfold main. rewrite Hg, Hf, Hc.
  destruct c. reflexivity.
Qed.

(** C3, as the code has it: after the three stages succeed, a failure to
    encode or to write the document is logged and the process exits with
    status 0; when the output file cannot be created, [log.Fatalln] logs
    the error and the process exits with status 1.  No document is written
    in either case. *)
Theorem output_failure_after_collection
  (ParseFloat : string -> option float) (env : Env) (stdin : string) (c : Config) :
  collected ParseFloat stdin c ->
  (∀ err,
     path env ≠ EmptyString -> Create env (path env) = Some err ->
     main ParseFloat env stdin
     = {| status := 1; logged := [FailedToCreateOutputFile err]; written := None |})
  ∧ (∀ err,
       path env = EmptyString ∨ Create env (path env) = None ->
       Encode env c = inr err ->
       main ParseFloat env stdin
       = {| status := 0; logged := [FailedToProduceOutput err]; written := None |}).
Proof.
  intros Hc. rewrite (main_collected ParseFloat env stdin c Hc).
  unfold produce_output. split.
  - intros err Hpath Hcreate. apply String.eqb_neq in Hpath.
    rewrite Hpath, Hcreate. reflexivity.
  - intros err Hdest Henc.
    destruct (String.eqb_spec (path env) EmptyString) as [Heq | Hne].
    + rewrite Henc. reflexivity.
    + destruct Hdest as [Hpath | Hcreate]; [contradiction|].
      rewrite Hcreate, Henc. reflexivity.
Qed.

(** A session for C3: no globals, one file, no commands; the output file
    cannot be created. *)
Lemma output_failure_after_collection_witness :
  main no_floats
    {| path := "out.json";
       Create := fun _ => Some (Errorf "permission denied");
       Write := None |}
    (lines ["n"; "a.txt"; "/tmp"; "t1"; "n"; "n"; "n"])
  = {| status := 1;
       logged := [FailedToCreateOutputFile (Errorf "permission denied")];
       written := None |}.
Proof.
  apply (proj1 (output_failure_after_collection no_floats
                  {| path := "out.json";
                     Create := fun _ => Some (Errorf "permission denied");
                     Write := None |}
                  (lines ["n"; "a.txt"; "/tmp"; "t1"; "n"; "n"; "n"])
                  {| Global := None;
                     Files := [File.mk "a.txt" "/tmp" "t1" None];
                     Cmds := [] |}
                  ltac:(do 3 eexists; repeat split; vm_compute; reflexivity))).
  - discriminate.
  - reflexivity.
Defined.

(** C3 as stated fails: with an output path whose file cannot be created,
    the run exits with status 1 after the three stages succeeded, whatever
    the float parser. *)
Lemma create_failure_exits_nonzero :
  ¬ ∃ ParseFloat : string -> option float,
      ∀ env stdin c err,
        collected ParseFloat stdin c ->
        path env ≠ EmptyString -> Create env (path env) = Some err ->
        status (main ParseFloat env stdin) = 0.
Proof.
  intros [ParseFloat H].
  specialize (H {| path := "out.json";
                   Create := fun _ => Some (Errorf "permission denied");
                   Write := None |}
                (lines ["n"; "a.txt"; "/tmp"; "t1"; "n"; "n"; "n"])
                {| Global := None;
                   Files := [File.mk "a.txt" "/tmp" "t1" None];
                   Cmds := [] |}
                (Errorf "permission denied")).
  assert (1 = 0) as Habs; [|discriminate Habs].
  apply H.
  - do 3 eexists. repeat split; vm_compute; reflexivity.
  - discriminate.
  - reflexivity.
Qed.

(** ** Reading a document back *)

Lemma foldl_store_list_to_map (kvs : list (string * value)) :
  NoDup kvs.*1 -> foldl json.store ∅ kvs = list_to_map kvs.
Proof.
  induction kvs as [|[k v] kvs IH] using rev_ind; intros Hnd; [reflexivity|].
  rewrite fmap_app in Hnd. apply NoDup_app in Hnd as (Hnd & Hk & _).
  rewrite foldl_snoc, list_to_map_snoc, (IH Hnd).
  - reflexivity.
  - intros Hin. apply (Hk k Hin). simpl. left.
Qed.

Lemma decode_encode_value v j :
  json.clean_value v -> json.encode_value v = Some j ->
  json.decode_value j = Some (json.read_back_value v).
Proof.
  destruct v as [b|i|f|s]; simpl; intros Hc H.
  - inversion H. reflexivity.
  - inversion H. reflexivity.
  - destruct (is_nan f || is_infinity f); inversion H. reflexivity.
  - inversion H. simpl. rewrite Hc. reflexivity.
Qed.

Lemma decode_encode_members l :
  ∀ l',
    Forall (fun kv => json.clean kv.1 ∧ json.clean_value kv.2) l ->
    mapM json.encode_member l = Some l' ->
    mapM json.decode_member l' = Some (prod_map id json.read_back_value <$> l).
Proof.
  intros l' Hc H. apply mapM_Some in H. apply mapM_Some.
  induction H as [|[k v] [k' j] l l' Hkv H IH]; [constructor|].
  apply Forall_cons in Hc as [[Hk Hv] Hc]. simpl in Hk, Hv.
  constructor; [|apply IH; exact Hc].
  unfold json.encode_member in Hkv. simpl in Hkv.
  destruct (json.encode_value v) as [j0|] eqn:Ev; [|discriminate].
  simpl in Hkv. inversion Hkv; subst.
  unfold json.decode_member. simpl.
  rewrite (decode_encode_value v j Hv Ev). simpl. rewrite Hk. reflexivity.
Qed.

Lemma decode_encode_variables m j :
  json.clean_variables m -> json.encode_variables m = Some j ->
  json.decode_variables None j = Some (json.read_back_variables m).
Proof.
  destruct m as [m|]; simpl; intros Hc H; [|inversion H; reflexivity].
  destruct (mapM json.encode_member (merge_sort json.key_le (map_to_list m)))
    as [members|] eqn:Em; [|discriminate].
  simpl in H. inversion H; subst. simpl.
  pose proof (merge_sort_Permutation json.key_le (map_to_list m)) as Hperm.
  assert (Forall (fun kv => json.clean kv.1 ∧ json.clean_value kv.2)
            (merge_sort json.key_le (map_to_list m))) as Hcs.
  { rewrite Hperm. apply map_Forall_to_list in Hc.
    eapply Forall_impl; [exact Hc|]. intros [k v] Hkv. exact Hkv. }
  rewrite (decode_encode_members _ _ Hcs Em).
  simpl. do 2 f_equal.
  rewrite foldl_store_list_to_map.
  - rewrite list_to_map_fmap.
    rewrite (list_to_map_proper _ (map_to_list m)).
    + rewrite list_to_map_to_list. reflexivity.
    + rewrite Hperm. apply NoDup_fst_map_to_list.
    + exact Hperm.
  - rewrite <- list_fmap_compose.
    replace (fst ∘ prod_map id json.read_back_value)
      with (fst : string * value -> string) by reflexivity.
    rewrite Hperm. apply NoDup_fst_map_to_list.
Qed.

Lemma decode_encode_File f j :
  json.clean_File f -> json.encode_File f = Some j ->
  json.decode_File j = Some (json.read_back_File f).
Proof.
  intros (Hn & Hp & Ht & Hl). unfold json.encode_File.
  destruct (json.encode_variables (File.Local f)) as [loc|] eqn:El; [|discriminate].
  simpl. intros H. inversion H; subst. clear H.
  unfold json.decode_File. cbn [foldl]. unfold json.decode_File_member.
  cbn -[json.decode_variables json.coerce].
  rewrite (decode_encode_variables _ _ Hl El). cbn.
  unfold json.clean in Hn, Hp, Ht. rewrite Hn, Hp, Ht. reflexivity.
Qed.

Lemma decode_encode_Files fs :
  ∀ js,
    Forall json.clean_File fs -> mapM json.encode_File fs = Some js ->
    mapM json.decode_File js = Some (json.read_back_File <$> fs).
Proof.
  intros js Hc H. apply mapM_Some in H. apply mapM_Some.
  induction H as [|f j fs js Hf H IH]; [constructor|].
  apply Forall_cons in Hc as [Hcf Hc].
  constructor; [apply decode_encode_File; assumption | apply IH; exact Hc].
Qed.

Lemma decode_encode_args args :
  Forall json.clean args ->
  mapM (json.decode_string EmptyString) ((fun a => json.String (json.coerce a)) <$> args)
  = Some args.
Proof.
  intros Hc. apply mapM_Some. apply Forall2_fmap_l.
  induction Hc as [|a args Ha Hc IH]; constructor; [|exact IH].
  simpl. rewrite Ha. reflexivity.
Qed.

Lemma decode_encode_Command c :
  json.clean_Command c -> json.decode_Command (json.encode_Command c) = Some c.
Proof.
  intros [Hn Ha]. destruct c as [name args]. simpl in Hn, Ha.
  unfold json.encode_Command, json.decode_Command. cbn [foldl].
  unfold json.decode_Command_member. cbn -[json.coerce mapM].
  rewrite (decode_encode_args args Ha). cbn. rewrite Hn. reflexivity.
Qed.

Lemma decode_encode_Commands cs :
  Forall json.clean_Command cs ->
  mapM json.decode_Command (json.encode_Command <$> cs) = Some cs.
Proof.
  intros Hc. apply mapM_Some. apply Forall2_fmap_l.
  induction Hc as [|c cs Hcc Hc IH]; constructor; [|exact IH].
  apply decode_encode_Command. exact Hcc.
Qed.

(** C9, as the code has it: a document all of whose strings are valid
    UTF-8 and that is encoded (it holds no NaN and no infinity) reads back
    with the same keys in its mappings, the same files and commands in the
    same order and the same booleans, floats and strings; every integer
    reads back as the float nearest to it. *)
Theorem document_reads_back (c : Config) (j : json.t) :
  json.clean_Config c ->
  json.encode_Config c = Some j ->
  json.decode_Config j = Some (json.read_back c).
Proof.
  intros (Hg & Hf & Hc). unfold json.encode_Config.
  destruct (json.encode_variables (Global c)) as [glob|] eqn:Eg; [|discriminate].
  destruct (mapM json.encode_File (Files c)) as [files|] eqn:Ef; [|discriminate].
  simpl. intros H. inversion H; subst. clear H.
  pose proof (decode_encode_variables _ _ Hg Eg) as Dg.
  pose proof (decode_encode_Files _ _ Hf Ef) as Df.
  pose proof (decode_encode_Commands _ Hc) as Dc.
  destruct c as [glob0 files0 cmds0]. simpl in *.
  unfold json.decode_Config, json.read_back. simpl Global. simpl Files. simpl Cmds.
  destruct files0 as [|f files0], cmds0 as [|c cmds0];
    cbn [foldl app]; unfold json.decode_Config_member;
    cbn -[json.decode_variables mapM json.encode_Command json.read_back_File fmap];
    rewrite Dg; cbn -[mapM json.encode_Command json.read_back_File fmap];
    rewrite ?Df; cbn -[mapM json.encode_Command json.read_back_File fmap];
    rewrite ?Dc; reflexivity.
Qed.

(** A document with an integer, a string and a command. *)
Lemma document_reads_back_witness :
  json.decode_Config
    (json.Object
       [("global", json.Object [("n", json.Int 2); ("s", json.String "v")]);
        ("commands",
         json.Array [json.Object [("name", json.String "ls");
                                  ("args", json.Array [json.String "-a"])]])])
  = Some (json.read_back
            {| Global := Some (<["n" := VInt 2]> {["s" := VString "v"]});
               Files := [];
               Cmds := [Command.mk "ls" ["-a"]] |}).
Proof.
  apply (document_reads_back
           {| Global := Some (<["n" := VInt 2]> {["s" := VString "v"]});
              Files := [];
              Cmds := [Command.mk "ls" ["-a"]] |}).
  - split; [|split].
    + apply map_Forall_insert_2; [split; vm_compute; reflexivity|].
      apply map_Forall_singleton. split; vm_compute; reflexivity.
    + constructor.
    + repeat constructor; vm_compute; reflexivity.
  - vm_compute. reflexivity.
Defined.

(** C9 as stated fails: the session that gives the global x the value 2
    and declares one file assembles a document that is encoded, and that
    reads back with x mapped to a float, whatever the float parser. *)
Lemma integer_reads_back_as_float :
  ¬ ∃ ParseFloat : string -> option float,
      ∀ (stdin : string) (c : Config) (j : json.t),
        collected ParseFloat stdin c ->
        json.encode_Config c = Some j -> json.decode_Config j = Some c.
Proof.
  intros [ParseFloat H].
  specialize (H (lines ["x 2"; "n"; "a.txt"; "/tmp"; "t1"; "n"; "n"; "n"])
                {| Global := Some {["x" := VInt 2]};
                   Files := [File.mk "a.txt" "/tmp" "t1" None];
                   Cmds := [] |}
                (json.Object
                   [("global", json.Object [("x", json.Int 2)]);
                    ("files",
                     json.Array
                       [json.Object [("name", json.String "a.txt");
                                     ("path", json.String "/tmp");
                                     ("template", json.String "t1");
                                     ("local", json.Null)]])])
                ltac:(do 3 eexists; repeat split; vm_compute; reflexivity)
                ltac:(vm_compute; reflexivity)).
  apply (f_equal (fun c : option Config =>
                    match c with
                    | Some {| Global := Some m |} => m !! "x"
                    | _ => None
                    end)) in H.
  vm_compute in H. discriminate H.
Qed.

(** ** The shape of the document *)

Lemma processVariables_no (ParseFloat : string -> option float) rest :
  processVariables ParseFloat (lines [no] +:+ rest) = Ok None rest.
Proof.
  unfold processVariables. cbn [lines]. rewrite append_assoc. cbn [String.append].
  rewrite (processVariables_loop_line ParseFloat _ _ no _ typed_line_no). reflexivity.
Qed.

Lemma encode_Config_keys c j :
  json.encode_Config c = Some j ->
  "global" ∈ keys j
  ∧ ("files" ∈ keys j ↔ Files c ≠ [])
  ∧ ("commands" ∈ keys j ↔ Cmds c ≠ []).
Proof.
  unfold json.encode_Config.
  destruct (json.encode_variables (Global c)) as [glob|]; [|discriminate].
  destruct (mapM json.encode_File (Files c)) as [files|]; [|discriminate].
  simpl. intros H. inversion H; subst. clear H.
  destruct (Files c) as [|f fs], (Cmds c) as [|c0 cs]; simpl;
    rewrite ?elem_of_cons, ?elem_of_nil;
    (split; [left; reflexivity|]);
    split; split; intros H; try discriminate; try congruence;
    try (right; left; reflexivity); try (left; reflexivity);
    try (right; right; left; reflexivity);
    repeat (destruct H as [H|H]; try discriminate H; try contradiction).
Qed.

(** C10: a variable loop returns the nil map unless it stored a pair, so a
    file collected with no local variable has a nil [Local]; such a file is
    written with its [local] key, the value of which is [null]; and the
    document has its [files] key exactly when there is a file and its
    [commands] key exactly when there is a command, next to the [global]
    key that is always there.  The session of one file without variables
    and without commands writes the document with [global] null, the file
    with [local] null, and no [commands] key. *)
Theorem nil_local_is_null_and_empty_slices_are_omitted
  (ParseFloat : string -> option float) :
  (∀ stdin m rest, processVariables ParseFloat stdin = Ok m rest -> m ≠ Some ∅)
  ∧ (∀ rest, processVariables ParseFloat (lines [no] +:+ rest) = Ok None rest)
  ∧ (∀ f,
       File.Local f = None ->
       json.encode_File f
       = Some (json.Object [("name", json.String (json.coerce (File.Name f)));
                            ("path", json.String (json.coerce (File.Path f)));
                            ("template", json.String (json.coerce (File.Template f)));
                            ("local", json.Null)]))
  ∧ (∀ c j,
       json.encode_Config c = Some j ->
       "global" ∈ keys j
       ∧ ("files" ∈ keys j ↔ Files c ≠ [])
       ∧ ("commands" ∈ keys j ↔ Cmds c ≠ []))
  ∧ main ParseFloat {| path := EmptyString; Create := fun _ => None; Write := None |}
      (lines ["n"; "a.txt"; "/tmp"; "t1"; "n"; "n"; "n"])
    = {| status := 0;
         logged := [];
         written :=
           Some (Stdout,
                 json.Object
                   [("global", json.Null);
                    ("files",
                     json.Array
                       [json.Object [("name", json.String "a.txt");
                                     ("path", json.String "/tmp");
                                     ("template", json.String "t1");
                                     ("local", json.Null)]])]) |}.
Proof.
  split; [|split; [|split; [|split]]].
  - intros stdin m rest.
    apply (processVariables_loop_not_empty ParseFloat _ None stdin m rest). discriminate.
  - apply processVariables_no.
  - intros f Hl. unfold json.encode_File. rewrite Hl. reflexivity.
  - apply encode_Config_keys.
  - vm_compute. reflexivity.
Qed.

(** The file [a.txt] without local variables. *)
Lemma nil_local_is_null_and_empty_slices_are_omitted_witness :
  json.encode_File (File.mk "a.txt" "/tmp" "t1" None)
  = Some (json.Object [("name", json.String (json.coerce "a.txt"));
                       ("path", json.String (json.coerce "/tmp"));
                       ("template", json.String (json.coerce "t1"));
                       ("local", json.Null)]).
Proof.
  apply (proj1 (proj2 (proj2 (nil_local_is_null_and_empty_slices_are_omitted no_floats)))
           (File.mk "a.txt" "/tmp" "t1" None)).
  reflexivity.
Defined.

(** * Further properties of the code *)

(** ** [format]: which tokens become integers, booleans, floats, strings *)

Lemma digit_val_not_digit c :
  is_digit c = false ->
  strconv.digit_val (byte_val c) = None
  ∨ ∃ d, strconv.digit_val (byte_val c) = Some d ∧ 10 <= d.
Proof.
  unfold is_digit, strconv.digit_val. intros ->.
  destruct ((97 <=? strconv.lower (byte_val c)) && _) eqn:E; [|left; reflexivity].
  right. eexists. split; [reflexivity|].
  apply andb_true_iff in E as [E _]. lia.
Qed.

(** The three ways the loop of [ParseUint] ends: the value of a string of
    digits that fits a uint64, a syntax error, or a range error with the
    largest uint64. *)
Lemma ParseUint_loop_cases ds :
  ∀ n, 0 <= n <= strconv.maxUint64 ->
    (all_digits ds = true ∧ decimal ds n <= strconv.maxUint64
     ∧ strconv.ParseUint_loop 10 64 ds n = (decimal ds n, None))
    ∨ strconv.ParseUint_loop 10 64 ds n = (0, Some strconv.ErrSyntax)
    ∨ strconv.ParseUint_loop 10 64 ds n = (2 ^ 64 - 1, Some strconv.ErrRange).
Proof.
  induction ds as [|c ds IH]; intros n Hn; cbn [strconv.ParseUint_loop all_digits decimal].
  - left. repeat split; try reflexivity; lia.
  - destruct (is_digit c) eqn:Hc.
    + destruct (digit_val_digit c Hc) as [-> Hr].
      unfold strconv.cutoff, strconv.maxVal, strconv.maxUint64 in *.
      change (2 ^ 64) with 18446744073709551616 in *.
      change ((18446744073709551616 - 1) / 10 + 1) with 1844674407370955162.
      destruct (10 <=? byte_val c - 48) eqn:E1; [lia|].
      destruct (1844674407370955162 <=? n) eqn:E2; [right; right; reflexivity|].
      rewrite (Z.mod_small (n * 10)) by lia.
      destruct (Z_le_gt_dec (n * 10 + (byte_val c - 48)) (18446744073709551616 - 1))
        as [Hfit | Hover].
      * rewrite (Z.mod_small (n * 10 + _)) by lia.
        destruct (n * 10 + (byte_val c - 48) <? n * 10) eqn:E3; [lia|].
        destruct (18446744073709551616 - 1 <? n * 10 + (byte_val c - 48)) eqn:E4; [lia|].
        cbn [orb]. rewrite (Z.mul_comm 10 n).
        destruct (IH (n * 10 + (byte_val c - 48)) ltac:(lia)) as [(Hd & Hm & He) | H];
          [left; repeat split; assumption | right; exact H].
      * right. right.
        replace ((n * 10 + (byte_val c - 48)) mod 18446744073709551616)
          with (n * 10 + (byte_val c - 48) - 18446744073709551616).
        2:{ apply Z.mod_unique with (q := 1); lia. }
        destruct (n * 10 + (byte_val c - 48) - 18446744073709551616 <? n * 10) eqn:E3;
          [reflexivity | lia].
    + right. left.
      destruct (digit_val_not_digit c Hc) as [-> | (d & -> & Hd)]; [reflexivity|].
      destruct (10 <=? d) eqn:E; [reflexivity | lia].
Qed.

(** [ParseInt] in base 10 and 64 bits returns without error only on the
    signed decimals of the int64 range, with their value. *)
Lemma ParseInt_ok_inv s v :
  strconv.ParseInt s 10 64 = (v, None) ->
  signed_decimal s = true
  ∧ - 2 ^ 63 <= signed_value s <= 2 ^ 63 - 1
  ∧ v = signed_value s.
Proof.
  destruct s as [|c ds]; [discriminate|].
  unfold strconv.ParseInt, signed_decimal, signed_value.
  change (2 ^ (64 - 1)) with (2 ^ 63).
  set (s' := if Ascii.eqb c "+" || Ascii.eqb c "-" then ds else String c ds).
  unfold strconv.ParseUint.
  destruct s' as [|d s''] eqn:Es'; [discriminate|].
  destruct (ParseUint_loop_cases (String d s'') 0 ltac:(unfold strconv.maxUint64; lia))
    as [(Hd & Hm & ->) | [-> | ->]]; [|discriminate|].
  - pose proof (decimal_ge _ Hd 0 ltac:(lia)) as Hge.
    unfold strconv.maxUint64 in Hm. subst s'.
    assert (Ascii.eqb c "+" || Ascii.eqb c "-" = true ->
            negb (String.eqb ds EmptyString) && all_digits ds = true
            ∧ ds = String d s'') as Hsign.
    { intros Esg. rewrite Esg in Es'. subst ds. rewrite Hd. split; reflexivity. }
    remember (decimal (String d s'') 0) as u eqn:Eu.
    destruct (Ascii.eqb c "-") eqn:Eneg.
    + destruct (Hsign ltac:(apply orb_true_r)) as [Hsd ->].
      rewrite orb_true_r, Hsd, <- Eu. cbn [negb andb].
      destruct (2 ^ 63 <? u) eqn:E; [discriminate|].
      intros H. injection H as <-. repeat split; try lia.
      destruct (Z.eq_dec u (2 ^ 63)) as [->|Hlt]; [reflexivity|].
      rewrite (int64_small u) by lia. apply int64_small. lia.
    + cbn [negb andb].
      destruct (2 ^ 63 <=? u) eqn:E; [discriminate|].
      intros H. injection H as <-.
      rewrite (int64_small u) by lia.
      destruct (Ascii.eqb c "+") eqn:Eplus; cbn [orb] in *.
      * destruct (Hsign eq_refl) as [Hsd ->].
        rewrite Hsd, <- Eu. repeat split; lia.
      * rewrite Es', Hd, <- Eu. repeat split; lia.
  - destruct (Ascii.eqb c "-"); cbn [negb andb];
      change (2 ^ 63 <=? 2 ^ 64 - 1) with true;
      change (2 ^ 63 <? 2 ^ 64 - 1) with true; discriminate.
Qed.

(** And on every one of them. *)
Lemma ParseInt_signed_decimal s :
  signed_decimal s = true ->
  - 2 ^ 63 <= signed_value s <= 2 ^ 63 - 1 ->
  strconv.ParseInt s 10 64 = (signed_value s, None).
Proof.
  destruct s as [|c ds]; [discriminate|].
  destruct (Ascii.eqb c "+") eqn:Eplus.
  - apply Ascii.eqb_eq in Eplus as ->.
    unfold signed_decimal, signed_value, strconv.ParseInt.
    cbn [Ascii.eqb Bool.eqb orb andb negb].
    intros Htok Hrange. apply andb_true_iff in Htok as [Hne Hd].
    assert (ds ≠ EmptyString) as Hne' by (intros ->; discriminate Hne).
    pose proof (decimal_ge ds Hd 0 ltac:(lia)) as Hge.
    rewrite (ParseUint_decimal ds Hne' Hd) by (unfold strconv.maxUint64; lia).
    change (2 ^ (64 - 1)) with (2 ^ 63).
    destruct (2 ^ 63 <=? decimal ds 0) eqn:E; [lia|].
    f_equal. apply int64_small. lia.
  - intros Htok Hrange.
    assert (is_int_token (String c ds) = true ∧ token_value (String c ds)
            = signed_value (String c ds)) as [Hi Hv].
    { unfold is_int_token, token_value, signed_decimal, signed_value in *.
      rewrite Eplus in *. cbn [orb] in Htok.
      destruct (Ascii.eqb c "-"); split; auto. }
    rewrite <- Hv in *. apply ParseInt_int_token; assumption.
Qed.

(** The boolean literals among the signed decimals are "0" and "1". *)
Lemma ParseBool_signed_decimal s :
  signed_decimal s = true -> s ≠ "0" -> s ≠ "1" -> strconv.ParseBool s = None.
Proof.
  intros Htok H0 H1.
  assert (∀ lit, In lit (true_literals ++ false_literals) ->
                 String.eqb s lit = false) as Hlit.
  { intros lit Hin. apply String.eqb_neq. intros ->.
    simpl in Hin.
    repeat (destruct Hin as [<-|Hin]; [first [congruence | discriminate Htok]|]).
    destruct Hin. }
  unfold strconv.ParseBool, str_in. cbn [existsb].
  rewrite !Hlit by (simpl; tauto). reflexivity.
Qed.

Lemma str_in_elem_of s l : str_in s l = true ↔ s ∈ l.
Proof.
  unfold str_in. rewrite existsb_exists, list_elem_of_In. split.
  - intros (x & Hin & Heq). apply String.eqb_eq in Heq as ->. exact Hin.
  - intros Hin. exists s. split; [exact Hin | apply String.eqb_refl].
Qed.

Lemma ParseBool_iff s b :
  strconv.ParseBool s = Some b
  ↔ (b = true ∧ s ∈ true_literals) ∨ (b = false ∧ s ∈ false_literals).
Proof.
  unfold strconv.ParseBool. fold true_literals false_literals.
  destruct (str_in s true_literals) eqn:Et.
  - apply str_in_elem_of in Et. split.
    + intros H. inversion H. left. split; [reflexivity | exact Et].
    + intros [[-> _] | [-> Hf]]; [reflexivity|]. exfalso.
      unfold true_literals, false_literals in *.
      repeat (apply elem_of_cons in Hf as [-> | Hf];
              [repeat (apply elem_of_cons in Et as [Et | Et]; [discriminate Et|]);
               apply elem_of_nil in Et; exact Et|]).
      apply elem_of_nil in Hf. exact Hf.
  - destruct (str_in s false_literals) eqn:Ef.
    + apply str_in_elem_of in Ef. split.
      * intros H. inversion H. right. split; [reflexivity | exact Ef].
      * intros [[-> Ht] | [-> _]]; [|reflexivity].
        apply str_in_elem_of in Ht. congruence.
    + split; [discriminate|].
      intros [[_ H] | [_ H]]; apply str_in_elem_of in H; congruence.
Qed.

(** X1: [format] stores an integer exactly for the signed decimals of the
    int64 range other than "0" and "1" (a leading [+] is accepted), and the
    integer is the value of the decimal. *)
Theorem format_integer_iff (ParseFloat : string -> option float) (v : string) (i : Z) :
  format ParseFloat v = VInt i
  ↔ signed_decimal v = true
    ∧ - 2 ^ 63 <= signed_value v <= 2 ^ 63 - 1
    ∧ i = signed_value v
    ∧ v ≠ "0" ∧ v ≠ "1".
Proof.
  unfold format. split.
  - destruct (strconv.ParseBool v) as [b|] eqn:Eb; [discriminate|].
    destruct (strconv.ParseInt v 10 64) as [val [err|]] eqn:Ei.
    + destruct (ParseFloat v); discriminate.
    + intros H. inversion H; subst.
      apply ParseInt_ok_inv in Ei as (Hs & Hr & Hv).
      split; [exact Hs|]. split; [exact Hr|]. split; [exact Hv|].
      split; intros ->; discriminate Eb.
  - intros (Hs & Hr & -> & H0 & H1).
    rewrite (ParseBool_signed_decimal v Hs H0 H1).
    rewrite (ParseInt_signed_decimal v Hs Hr). reflexivity.
Qed.

(** X2: [format] stores a boolean exactly for the twelve literals of
    [ParseBool]: true for 1, t, T, TRUE, true, True and false for 0, f, F,
    FALSE, false, False. *)
Theorem format_boolean_iff (ParseFloat : string -> option float) (v : string) (b : bool) :
  format ParseFloat v = VBool b
  ↔ (b = true ∧ v ∈ true_literals) ∨ (b = false ∧ v ∈ false_literals).
Proof.
  rewrite <- ParseBool_iff. unfold format.
  destruct (strconv.ParseBool v) as [b'|].
  - split; intros H; inversion H; reflexivity.
  - destruct (strconv.ParseInt v 10 64) as [val [err|]];
      [destruct (ParseFloat v)|]; split; discriminate.
Qed.



(** ** Sessions of the variable loop *)

Lemma processVariables_loop_lines (ParseFloat : string -> option float) ls :
  ∀ fuel result tail,
    Forall variable_line ls ->
    processVariables_loop ParseFloat (length ls + fuel) result (lines ls +:+ tail)
    = processVariables_loop ParseFloat fuel (foldl (store_line ParseFloat) result ls) tail.
Proof.
  induction ls as [|l ls IH]; intros fuel result tail Hls; [reflexivity|].
  apply Forall_cons in Hls as [(Hl & Hno & Hparts) Hls].
  cbn [lines length Nat.add foldl]. rewrite append_assoc. cbn [String.append].
  rewrite (processVariables_loop_line ParseFloat _ _ l _ Hl).
  unfold store_line at 2.
  destruct (String.eqb (bufio.dropCR l) yes) eqn:Ey; [apply IH; exact Hls|].
  apply String.eqb_neq in Hno as ->.
  destruct Hparts as [Hy | (name & val & ->)];
    [apply String.eqb_neq in Ey; contradiction|].
  apply IH. exact Hls.
Qed.

Lemma processVariables_lines (ParseFloat : string -> option float) ls tail :
  Forall variable_line ls ->
  processVariables ParseFloat (lines ls +:+ tail)
  = processVariables_loop ParseFloat (S (String.length tail))
      (variables_of ParseFloat ls) tail.
Proof.
  intros Hls. unfold processVariables.
  pose proof (length_lines ls) as Hlen.
  rewrite length_append.
  replace (S (String.length (lines ls) + String.length tail))
    with (length ls + S (String.length (lines ls) - length ls + String.length tail))%nat
    by lia.
  rewrite (processVariables_loop_lines ParseFloat ls _ None tail Hls).
  apply processVariables_loop_fuel; lia.
Qed.

Lemma append_empty_r (s : string) : s +:+ EmptyString = s.
Proof. induction s as [|c s IH]; simpl; [reflexivity | now rewrite IH]. Qed.

(** A run of variable lines closed by a stop line. *)
Lemma processVariables_lines_stop (ParseFloat : string -> option float) ls stop rest :
  Forall variable_line ls -> stop_line stop ->
  processVariables ParseFloat (lines ls +:+ lines [stop] +:+ rest)
  = Ok (variables_of ParseFloat ls) rest.
Proof.
  intros Hls [Hstop Hno]. rewrite (processVariables_lines ParseFloat ls _ Hls).
  cbn [lines]. rewrite append_assoc. cbn [String.append].
  rewrite (processVariables_loop_line ParseFloat _ _ stop _ Hstop), Hno. reflexivity.
Qed.

Lemma stop_line_no : stop_line no.
Proof. split; [apply typed_line_no | reflexivity]. Qed.

(** A run of variable lines closed by the negative token. *)
Lemma processVariables_lines_no (ParseFloat : string -> option float) ls rest :
  Forall variable_line ls ->
  processVariables ParseFloat (lines ls +:+ lines [no] +:+ rest)
  = Ok (variables_of ParseFloat ls) rest.
Proof.
  intros Hls. apply processVariables_lines_stop; [assumption | apply stop_line_no].
Qed.

(** X4: a run of lines, each the affirmative token or a pair of two parts
    around one space, closed by the negative token or by the end of the
    input, yields the mapping built by storing the pairs in order, and
    leaves the input after the negative token. *)
Theorem processVariables_collects_pairs (ParseFloat : string -> option float)
  (ls : list string) :
  Forall variable_line ls ->
  (∀ rest,
     processVariables ParseFloat (lines ls +:+ lines [no] +:+ rest)
     = Ok (variables_of ParseFloat ls) rest)
  ∧ processVariables ParseFloat (lines ls)
    = Ok (variables_of ParseFloat ls) EmptyString.
Proof.
  intros Hls. split.
  - intros rest. rewrite (processVariables_lines ParseFloat ls _ Hls).
    cbn [lines]. rewrite append_assoc. cbn [String.append].
    rewrite (processVariables_loop_line ParseFloat _ _ no _ typed_line_no). reflexivity.
  - rewrite <- (append_empty_r (lines ls)) at 1.
    rewrite (processVariables_lines ParseFloat ls _ Hls). reflexivity.
Qed.

Lemma processVariables_collects_pairs_witness :
  processVariables no_floats (lines ["k 2"; "y"; "k 3"; "on t"])
  = Ok (variables_of no_floats ["k 2"; "y"; "k 3"; "on t"]) EmptyString.
Proof.
  apply (proj2 (processVariables_collects_pairs no_floats ["k 2"; "y"; "k 3"; "on t"]
                  ltac:(repeat (constructor; [solve_variable_line|]); constructor))).
Defined.

Lemma variables_of_snoc (ParseFloat : string -> option float) ls l :
  variables_of ParseFloat (ls ++ [l])
  = store_line ParseFloat (variables_of ParseFloat ls) l.
Proof. unfold variables_of. apply foldl_snoc. Qed.

(** X5: the last pair of a session wins: after a line that gives [name] a
    value the mapping holds the typed value of that line under [name],
    whatever an earlier line stored there, and every other name keeps what
    the earlier lines stored. *)
Theorem last_pair_wins (ParseFloat : string -> option float)
  (ls : list string) (l name val rest : string) :
  Forall variable_line ls -> typed_line l ->
  bufio.dropCR l ≠ yes -> bufio.dropCR l ≠ no ->
  strings.Split (bufio.dropCR l) " " = [name; val] ->
  ∃ m,
    processVariables ParseFloat (lines (ls ++ [l]) +:+ lines [no] +:+ rest)
    = Ok (Some m) rest
    ∧ m !! name = Some (format ParseFloat val)
    ∧ ∀ other, other ≠ name ->
        m !! other = default ∅ (variables_of ParseFloat ls) !! other.
Proof.
  intros Hls Hl Hy Hn Hsplit.
  assert (Forall variable_line (ls ++ [l])) as Hall.
  { apply Forall_app. split; [exact Hls|]. constructor; [|constructor].
    split; [exact Hl|]. split; [exact Hn|]. right. eauto. }
  exists (<[name := format ParseFloat val]> (default ∅ (variables_of ParseFloat ls))).
  split; [|split].
  - rewrite (processVariables_lines ParseFloat (ls ++ [l]) _ Hall).
    cbn [lines]. rewrite append_assoc. cbn [String.append].
    rewrite (processVariables_loop_line ParseFloat _ _ no _ typed_line_no).
    cbn [bufio.dropCR no yes String.eqb Ascii.eqb Bool.eqb].
    rewrite variables_of_snoc. unfold store_line.
    apply String.eqb_neq in Hy. rewrite Hy, Hsplit. reflexivity.
  - apply lookup_insert_eq.
  - intros other Hne. apply lookup_insert_ne. congruence.
Qed.

Lemma last_pair_wins_witness :
  ∃ m,
    processVariables no_floats (lines (["k 2"; "j 5"] ++ ["k 3"]) +:+ lines [no] +:+ "rest")
    = Ok (Some m) "rest"
    ∧ m !! "k" = Some (format no_floats "3")
    ∧ ∀ other, other ≠ "k" ->
        m !! other = default ∅ (variables_of no_floats ["k 2"; "j 5"]) !! other.
Proof.
  apply (last_pair_wins no_floats ["k 2"; "j 5"] "k 3" "k" "3" "rest").
  - repeat (constructor; [solve_variable_line|]); constructor.
  - split; vm_compute; congruence.
  - discriminate.
  - discriminate.
  - reflexivity.
Defined.

Lemma processVariables_loop_malformed (ParseFloat : string -> option float)
  pre bad post :
  Forall (fun l => typed_line l ∧ bufio.dropCR l ≠ no) pre ->
  malformed_line bad ->
  ∀ fuel result,
    (length pre < fuel)%nat ->
    processVariables_loop ParseFloat fuel result (lines pre +:+ lines [bad] +:+ post)
    = Fail (Errorf "incorrect number of tokens").
Proof.
  intros Hpre (Hbad & Hy & Hn & Hparts).
  induction Hpre as [|l pre [Hl Hno] Hpre IH]; intros fuel result Hfuel;
    (destruct fuel as [|fuel]; [simpl in Hfuel; lia|]).
  - cbn [lines]. rewrite !append_assoc. cbn [String.append].
    rewrite (processVariables_loop_line ParseFloat _ _ bad _ Hbad).
    apply String.eqb_neq in Hy, Hn. rewrite Hy, Hn.
    destruct (strings.Split (bufio.dropCR bad) " ") as [|a [|b [|c t]]] eqn:E;
      try reflexivity.
    destruct (Hparts a b eq_refl).
  - change (lines (l :: pre)) with (l +:+ String LF (lines pre)).
    rewrite (append_assoc l). cbn [String.append].
    rewrite (processVariables_loop_line ParseFloat _ _ l _ Hl).
    simpl in Hfuel.
    destruct (String.eqb (bufio.dropCR l) yes); [apply IH; lia|].
    apply String.eqb_neq in Hno as ->.
    destruct (strings.Split (bufio.dropCR l) " ") as [|a [|b [|c t]]];
      try reflexivity.
    apply IH. lia.
Qed.

(** X6: a line of a variable loop that is no control token and does not
    have exactly two parts around one space ends the loop with the error
    of the token count, whatever was stored before: the pairs collected so
    far are dropped.  In the globals the run logs the error, wrapped as
    that of the global variables, exits with status 1 and writes no
    document. *)
Theorem malformed_variable_line_aborts (ParseFloat : string -> option float)
  (env : Env) (pre : list string) (bad post : string) :
  Forall (fun l => typed_line l ∧ bufio.dropCR l ≠ no) pre ->
  malformed_line bad ->
  processVariables ParseFloat (lines pre +:+ lines [bad] +:+ post)
  = Fail (Errorf "incorrect number of tokens")
  ∧ main ParseFloat env (lines pre +:+ lines [bad] +:+ post)
    = {| status := 1;
         logged := [FailedToProcessConfig
                      (Wrapf "global variables" (Errorf "incorrect number of tokens"))];
         written := None |}.
Proof.
  intros Hpre Hbad.
  assert (processVariables ParseFloat (lines pre +:+ lines [bad] +:+ post)
          = Fail (Errorf "incorrect number of tokens")) as H.
  { unfold processVariables.
    apply (processVariables_loop_malformed ParseFloat pre bad post Hpre Hbad).
    pose proof (length_lines pre). rewrite length_append. lia. }
  split; [exact H|].
  unfold main, readGlobals, wrapping. rewrite H. reflexivity.
Qed.

Lemma malformed_variable_line_aborts_witness :
  processVariables no_floats (lines ["k 2"] +:+ lines ["SomeValue"] +:+ lines ["n"])
  = Fail (Errorf "incorrect number of tokens").
Proof.
  apply (proj1 (malformed_variable_line_aborts no_floats
                  {| path := EmptyString; Create := fun _ => None; Write := None |}
                  ["k 2"] "SomeValue" (lines ["n"])
                  ltac:(repeat constructor; vm_compute; congruence)
                  ltac:(split; [split; vm_compute; congruence|];
                        split; [discriminate|]; split; [discriminate|];
                        intros name val; vm_compute; discriminate))).
Defined.

(** ** What [scan] reads *)

Lemma isSpace_ascii r : 0 <= r < 0x80 -> isSpace r = strings.asciiSpace r.
Proof.
  intros Hr. unfold isSpace, strings.asciiSpace.
  destruct (Z.leb_spec 9 r), (Z.leb_spec r 13), (Z.eqb_spec r 32); cbn [andb orb];
    try reflexivity;
    repeat match goal with
           | |- context [?a =? ?b] => destruct (Z.eqb_spec a b); [lia|]
           | |- context [?a <=? ?b] => destruct (Z.leb_spec a b); try lia
           end; reflexivity.
Qed.

Lemma byte_val_range c : 0 <= byte_val c < 256.
Proof.
  unfold byte_val. pose proof (N_ascii_bounded c). lia.
Qed.

Lemma byte_of_byte_val c : byte_of (byte_val c) = c.
Proof.
  unfold byte_of, byte_val. rewrite N2Z.id. apply ascii_N_embedding.
Qed.

(** An ASCII byte is a rune of one byte. *)
Lemma getRune_ascii c s :
  byte_val c < 0x80 -> fmt.getRune (String c s) = Some (byte_val c, s).
Proof.
  intros Hc. unfold fmt.getRune, utf8.DecodeRune.
  destruct (Z.ltb_spec (byte_val c) 128); [reflexivity | lia].
Qed.

Lemma EncodeRune_ascii c :
  byte_val c < 0x80 -> utf8.EncodeRune (byte_val c) = String c EmptyString.
Proof.
  intros Hc. pose proof (byte_val_range c) as Hr. unfold utf8.EncodeRune.
  destruct (Z.leb_spec 0 (byte_val c)); [|lia].
  destruct (Z.leb_spec (byte_val c) 127); [|lia].
  cbn [andb utf8.bytes fold_right]. rewrite byte_of_byte_val. reflexivity.
Qed.

Lemma SkipSpace_blanks sp :
  all_blanks sp = true ->
  ∀ fuel s, fmt.SkipSpace (String.length sp + fuel) (sp +:+ s) = fmt.SkipSpace fuel s.
Proof.
  induction sp as [|c sp IH]; intros Hsp fuel s; [reflexivity|].
  cbn [all_blanks] in Hsp. apply andb_true_iff in Hsp as [Hc Hsp].
  cbn [String.length Nat.add String.append fmt.SkipSpace].
  assert (byte_val c = 32 ∨ byte_val c = 9) as Hb.
  { apply orb_true_iff in Hc as [Hc | Hc]; apply Z.eqb_eq in Hc; auto. }
  rewrite getRune_ascii by (destruct Hb as [-> | ->]; lia).
  destruct Hb as [-> | ->]; cbn; apply IH; exact Hsp.
Qed.

Lemma token_word t :
  word_bytes t = true ->
  ∀ fuel c rest,
    strings.asciiSpace (byte_val c) = true -> byte_val c < 0x80 ->
    fmt.token (String.length t + S fuel) (t +:+ String c rest) = (t, rest).
Proof.
  induction t as [|a t IH]; intros Ht fuel c rest Hc Hc'.
  - cbn [String.length Nat.add String.append fmt.token].
    rewrite (getRune_ascii c rest Hc').
    pose proof (byte_val_range c).
    rewrite isSpace_ascii, Hc by lia. reflexivity.
  - cbn [word_bytes] in Ht. apply andb_true_iff in Ht as [Ha Ht].
    unfold word_byte in Ha. apply andb_true_iff in Ha as [Ha1 Ha2].
    apply Z.ltb_lt in Ha1. apply negb_true_iff in Ha2.
    cbn [String.length Nat.add String.append fmt.token].
    rewrite (getRune_ascii a _ Ha1).
    pose proof (byte_val_range a).
    rewrite isSpace_ascii, Ha2 by lia.
    rewrite (IH Ht fuel c rest Hc Hc'), (EncodeRune_ascii a Ha1). reflexivity.
Qed.

Lemma token_word_end t :
  word_bytes t = true ->
  ∀ fuel, fmt.token (String.length t + fuel) t = (t, EmptyString).
Proof.
  induction t as [|a t IH]; intros Ht fuel.
  - destruct fuel; reflexivity.
  - cbn [word_bytes] in Ht. apply andb_true_iff in Ht as [Ha Ht].
    unfold word_byte in Ha. apply andb_true_iff in Ha as [Ha1 Ha2].
    apply Z.ltb_lt in Ha1. apply negb_true_iff in Ha2.
    cbn [String.length Nat.add fmt.token].
    rewrite (getRune_ascii a _ Ha1).
    pose proof (byte_val_range a).
    rewrite isSpace_ascii, Ha2 by lia.
    rewrite (IH Ht fuel), (EncodeRune_ascii a Ha1). reflexivity.
Qed.

Lemma SkipSpace_word c s fuel :
  word_byte c = true -> fmt.SkipSpace (S fuel) (String c s) = inl (String c s).
Proof.
  unfold word_byte. intros Hc. apply andb_true_iff in Hc as [Hc1 Hc2].
  apply Z.ltb_lt in Hc1. apply negb_true_iff in Hc2.
  cbn [fmt.SkipSpace]. rewrite (getRune_ascii c s Hc1).
  pose proof (byte_val_range c).
  rewrite isSpace_ascii, Hc2 by lia.
  unfold strings.asciiSpace in Hc2.
  destruct (Z.eqb_spec (byte_val c) 13) as [E|_]; [rewrite E in Hc2; discriminate Hc2|].
  destruct (Z.eqb_spec (byte_val c) 10) as [E|_]; [rewrite E in Hc2; discriminate Hc2|].
  reflexivity.
Qed.

(** A word after blanks, ended by a white space byte. *)
Lemma scan_word (sp t : string) (c : ascii) (rest : string) :
  all_blanks sp = true -> ascii_word t = true ->
  strings.asciiSpace (byte_val c) = true ->
  scan (sp +:+ t +:+ String c rest) = Ok t rest.
Proof.
  intros Hsp Ht Hc. unfold ascii_word in Ht. apply andb_true_iff in Ht as [Hne Ht].
  destruct t as [|a t]; [discriminate Hne|]. clear Hne.
  pose proof Ht as Ht'. cbn [word_bytes] in Ht'.
  apply andb_true_iff in Ht' as [Ha _].
  assert (byte_val c < 0x80) as Hc'.
  { unfold strings.asciiSpace in Hc.
    destruct (Z.leb_spec 9 (byte_val c)), (Z.leb_spec (byte_val c) 13),
      (Z.eqb_spec (byte_val c) 32); cbn in Hc; try discriminate Hc; lia. }
  unfold scan, fmt.Scanf_s.
  change (String a t +:+ String c rest) with (String a (t +:+ String c rest)).
  rewrite (SkipSpace_fuel _ (String.length sp
                             + S (String.length (String a (t +:+ String c rest))))
             (sp +:+ String a (t +:+ String c rest)))
    by (rewrite length_append; lia).
  rewrite (SkipSpace_blanks sp Hsp).
  rewrite (SkipSpace_word a _ _ Ha).
  rewrite (token_fuel _ (String.length (String a t) + S (String.length rest)) _)
    by (rewrite ?length_append; cbn [String.length]; rewrite ?length_append;
        cbn [String.length]; lia).
  change (String a (t +:+ String c rest)) with (String a t +:+ String c rest).
  rewrite (token_word (String a t) Ht _ c rest Hc Hc'). reflexivity.
Qed.

(** A word at the start of the input. *)
Lemma scan_first_word (t : string) (c : ascii) (rest : string) :
  ascii_word t = true -> strings.asciiSpace (byte_val c) = true ->
  scan (t +:+ String c rest) = Ok t rest.
Proof.
  intros Ht Hc. exact (scan_word EmptyString t c rest eq_refl Ht Hc).
Qed.

(** A word after blanks, ended by the end of the input. *)
Lemma scan_word_end (sp t : string) :
  all_blanks sp = true -> ascii_word t = true ->
  scan (sp +:+ t) = Ok t EmptyString.
Proof.
  intros Hsp Ht. unfold ascii_word in Ht. apply andb_true_iff in Ht as [Hne Ht].
  destruct t as [|a t]; [discriminate Hne|]. clear Hne.
  pose proof Ht as Ht'. cbn [word_bytes] in Ht'.
  apply andb_true_iff in Ht' as [Ha _].
  unfold scan, fmt.Scanf_s.
  rewrite (SkipSpace_fuel _ (String.length sp + S (String.length (String a t)))
             (sp +:+ String a t))
    by (rewrite length_append; lia).
  rewrite (SkipSpace_blanks sp Hsp), (SkipSpace_word a _ _ Ha).
  rewrite (token_fuel _ (String.length (String a t) + 0) _)
    by (rewrite ?length_append; cbn [String.length]; lia).
  rewrite (token_word_end (String a t) Ht). reflexivity.
Qed.

(** A newline after blanks. *)
Lemma scan_newline (sp rest : string) :
  all_blanks sp = true -> scan (sp +:+ String LF rest) = Fail ErrUnexpectedNewline.
Proof.
  intros Hsp. unfold scan, fmt.Scanf_s.
  rewrite (SkipSpace_fuel _ (String.length sp + S (String.length rest))
             (sp +:+ String LF rest))
    by (rewrite length_append; cbn [String.length]; lia).
  rewrite (SkipSpace_blanks sp Hsp). reflexivity.
Qed.

(** X7: [scan] skips leading blanks and returns the word that follows, up
    to the first white space byte after it, which it consumes; what comes
    after that byte is left for the next reader, on the same line or not.
    At the end of the input the word is returned all the same. *)
Theorem scan_reads_word (sp t : string) :
  all_blanks sp = true -> ascii_word t = true ->
  (∀ c rest,
     strings.asciiSpace (byte_val c) = true ->
     scan (sp +:+ t +:+ String c rest) = Ok t rest)
  ∧ scan (sp +:+ t) = Ok t EmptyString.
Proof.
  intros Hsp Ht. split.
  - intros c rest Hc. apply scan_word; assumption.
  - apply scan_word_end; assumption.
Qed.

Lemma scan_reads_word_witness :
  scan ("  " +:+ "a.txt" +:+ " /tmp") = Ok "a.txt" "/tmp".
Proof.
  apply (proj1 (scan_reads_word "  " "a.txt" eq_refl eq_refl) " "%char "/tmp").
  reflexivity.
Defined.

(** X8: [scan] fails with the newline error when the operator enters an
    empty line, or a line of blanks only, whether it ends in a newline or
    in a carriage return and a newline; and with [io.EOF] when the input
    ends before any word. *)
Theorem scan_fails_without_word (sp : string) :
  all_blanks sp = true ->
  (∀ rest, scan (sp +:+ String LF rest) = Fail ErrUnexpectedNewline)
  ∧ (∀ rest, scan (sp +:+ String CR (String LF rest)) = Fail ErrUnexpectedNewline)
  ∧ scan sp = Fail EOF.
Proof.
  intros Hsp. unfold scan, fmt.Scanf_s. split; [|split].
  - intros rest. fold (scan (sp +:+ String LF rest)). apply scan_newline, Hsp.
  - intros rest.
    rewrite (SkipSpace_fuel _ (String.length sp + S (S (String.length rest)))
               (sp +:+ String CR (String LF rest)))
      by (rewrite length_append; cbn [String.length]; lia).
    rewrite (SkipSpace_blanks sp Hsp). reflexivity.
  - rewrite <- (append_empty_r sp) at 2.
    rewrite (SkipSpace_fuel _ (String.length sp + 0) (sp +:+ EmptyString))
      by (rewrite length_append; cbn [String.length]; lia).
    rewrite (SkipSpace_blanks sp Hsp). reflexivity.
Qed.

Lemma scan_fails_without_word_witness :
  scan (" " +:+ String LF "a.txt") = Fail ErrUnexpectedNewline.
Proof.
  apply (proj1 (scan_fails_without_word " " eq_refl) "a.txt").
Defined.

(** ** Sessions of the file collector *)

Lemma lines_app (l1 l2 : list string) : lines (l1 ++ l2) = lines l1 +:+ lines l2.
Proof.
  induction l1 as [|l l1 IH]; [reflexivity|].
  cbn [app lines]. rewrite IH, append_assoc. reflexivity.
Qed.

Lemma lines_cons_append (l : string) (ls : list string) (tail : string) :
  lines (l :: ls) +:+ tail = l +:+ String LF (lines ls +:+ tail).
Proof. cbn [lines]. rewrite append_assoc. reflexivity. Qed.

Lemma asciiSpace_LF : strings.asciiSpace (byte_val LF) = true.
Proof. reflexivity. Qed.

(** The three fields, each ended by a white space byte and the template by
    a newline, then the variable lines. *)
Lemma readFile_fields (ParseFloat : string -> option float)
  (name path template : string) (c1 c2 : ascii) (ls : list string) (rest : string) :
  ascii_word name = true -> ascii_word path = true -> ascii_word template = true ->
  strings.asciiSpace (byte_val c1) = true ->
  strings.asciiSpace (byte_val c2) = true ->
  Forall variable_line ls ->
  readFile ParseFloat
    (name +:+ String c1 (path +:+ String c2 (template +:+ String LF
       (lines ls +:+ lines [no] +:+ rest))))
  = Ok (File.mk name path template (variables_of ParseFloat ls)) rest.
Proof.
  intros Hn Hp Ht H1 H2 Hls. unfold readFile. unfold_M.
  rewrite (scan_first_word name c1 _ Hn H1).
  rewrite (scan_first_word path c2 _ Hp H2).
  rewrite (scan_first_word template LF _ Ht asciiSpace_LF).
  rewrite (processVariables_lines_no ParseFloat ls rest Hls). reflexivity.
Qed.

(** X9: the three fields of a file may be typed on one line or on several:
    whatever white space byte ends the name and the path, the file is the
    same, provided a newline follows the template at once.  The variable
    lines that come next, closed by the negative token, are its local
    variables. *)
Theorem fields_on_one_line_or_several (ParseFloat : string -> option float)
  (name path template : string) (c1 c2 : ascii) (ls : list string) (rest : string) :
  ascii_word name = true -> ascii_word path = true -> ascii_word template = true ->
  strings.asciiSpace (byte_val c1) = true ->
  strings.asciiSpace (byte_val c2) = true ->
  Forall variable_line ls ->
  readFile ParseFloat
    (name +:+ String c1 (path +:+ String c2 (template +:+ String LF
       (lines ls +:+ lines [no] +:+ rest))))
  = readFile ParseFloat (lines ([name; path; template] ++ ls ++ [no]) +:+ rest)
  ∧ readFile ParseFloat (lines ([name; path; template] ++ ls ++ [no]) +:+ rest)
    = Ok (File.mk name path template (variables_of ParseFloat ls)) rest.
Proof.
  intros Hn Hp Ht H1 H2 Hls.
  assert (lines ([name; path; template] ++ ls ++ [no]) +:+ rest
          = name +:+ String LF (path +:+ String LF (template +:+ String LF
              (lines ls +:+ lines [no] +:+ rest)))) as ->.
  { change ([name; path; template] ++ ls ++ [no])
      with (name :: path :: template :: (ls ++ [no])).
    rewrite !lines_cons_append, lines_app, append_assoc. reflexivity. }
  rewrite (readFile_fields ParseFloat name path template c1 c2 ls rest) by assumption.
  rewrite (readFile_fields ParseFloat name path template LF LF ls rest)
    by (assumption || reflexivity).
  split; reflexivity.
Qed.

Lemma fields_on_one_line_or_several_witness :
  readFile no_floats ("a.txt /tmp tpl" +:+ String LF (lines ["k 2"] +:+ lines [no] +:+ "y"))
  = readFile no_floats (lines (["a.txt"; "/tmp"; "tpl"] ++ ["k 2"] ++ [no]) +:+ "y").
Proof.
  apply (proj1 (fields_on_one_line_or_several no_floats "a.txt" "/tmp" "tpl"
                  " "%char " "%char ["k 2"] "y" eq_refl eq_refl eq_refl eq_refl eq_refl
                  ltac:(repeat (constructor; [solve_variable_line|]); constructor))).
Defined.

Lemma readFile_entry (ParseFloat : string -> option float) e answer rest :
  good_entry e ->
  readFile ParseFloat (entry_input e answer +:+ rest)
  = Ok (file_of ParseFloat e) (answer +:+ String LF rest).
Proof.
  intros (Hn & Hp & Ht & Hls). unfold entry_input, file_of.
  assert (lines ([entry_name e; entry_path e; entry_template e]
                 ++ entry_locals e ++ [no; answer]) +:+ rest
          = entry_name e +:+ String LF (entry_path e +:+ String LF
              (entry_template e +:+ String LF
                 (lines (entry_locals e) +:+ lines [no]
                  +:+ (answer +:+ String LF rest))))) as ->.
  { change ([entry_name e; entry_path e; entry_template e]
            ++ entry_locals e ++ [no; answer])
      with (entry_name e :: entry_path e :: entry_template e
            :: (entry_locals e ++ [no; answer])).
    rewrite !lines_cons_append, lines_app, append_assoc.
    rewrite !lines_cons_append. reflexivity. }
  apply readFile_fields; assumption || reflexivity.
Qed.

Lemma readFiles_entries (ParseFloat : string -> option float) es :
  es ≠ [] -> Forall good_entry es ->
  ∀ rest,
    readFiles ParseFloat (files_input es +:+ rest)
    = Ok (file_of ParseFloat <$> es) rest.
Proof.
  induction es as [|e es IH]; intros Hne Hes rest; [congruence|].
  apply Forall_cons in Hes as [He Hes].
  destruct es as [|e' es].
  - cbn [files_input].
    rewrite (readFiles_first_file ParseFloat _ _ _ no rest
               (readFile_entry ParseFloat e no rest He)
               (scan_first_word no LF rest eq_refl eq_refl)).
    reflexivity.
  - change (files_input (e :: e' :: es))
      with (entry_input e yes +:+ files_input (e' :: es)).
    rewrite append_assoc.
    rewrite (readFiles_first_file ParseFloat _ _ _ yes _
               (readFile_entry ParseFloat e yes _ He)
               (scan_first_word yes LF _ eq_refl eq_refl)).
    rewrite (IH ltac:(discriminate) Hes rest). reflexivity.
Qed.

(** X10: a session of the file collector, one field per line, each entry
    followed by its variable lines, the negative token, and the answer to
    the question for a next file ([y] after every entry but the last, [n]
    after the last), yields the files of the entries in the order they
    were entered and leaves the input after the last answer. *)
Theorem readFiles_collects_entries (ParseFloat : string -> option float)
  (es : list entry) (rest : string) :
  es ≠ [] -> Forall good_entry es ->
  readFiles ParseFloat (files_input es +:+ rest)
  = Ok (file_of ParseFloat <$> es) rest.
Proof.
  intros Hne Hes. apply readFiles_entries; assumption.
Qed.

Lemma readFiles_collects_entries_witness :
  readFiles no_floats
    (files_input [ {| entry_name := "a.txt"; entry_path := "/tmp";
                      entry_template := "tpl"; entry_locals := ["k 2"] |};
                   {| entry_name := "b.txt"; entry_path := "/var";
                      entry_template := "tpl"; entry_locals := [] |} ] +:+ "ls")
  = Ok (file_of no_floats
          <$> [ {| entry_name := "a.txt"; entry_path := "/tmp";
                   entry_template := "tpl"; entry_locals := ["k 2"] |};
                {| entry_name := "b.txt"; entry_path := "/var";
                   entry_template := "tpl"; entry_locals := [] |} ]) "ls".
Proof.
  apply readFiles_collects_entries; [discriminate|].
  repeat (constructor; [solve_good_entry|]); constructor.
Defined.

(** ** Sessions of the whole wizard *)

Lemma readFiles_first_failure (ParseFloat : string -> option float) s err :
  readFile ParseFloat s = Fail err -> readFiles ParseFloat s = Fail err.
Proof.
  intros H. unfold readFiles. cbn [readFiles_loop].
  unfold readFiles_turn. unfold_M. rewrite H. reflexivity.
Qed.

Lemma readGlobals_lines_stop (ParseFloat : string -> option float) ls stop rest :
  Forall variable_line ls -> stop_line stop ->
  readGlobals ParseFloat (lines ls +:+ lines [stop] +:+ rest)
  = Ok (variables_of ParseFloat ls) rest.
Proof.
  intros Hls Hstop. unfold readGlobals, wrapping.
  rewrite (processVariables_lines_stop ParseFloat ls stop rest Hls Hstop). reflexivity.
Qed.

Lemma readCommands_lines_stop ls stop rest :
  Forall command_line ls -> stop_line stop ->
  readCommands (lines ls +:+ lines [stop] +:+ rest) = Ok (commands_of ls) rest.
Proof.
  intros Hls [Hstop Hno]. rewrite (readCommands_lines ls _ Hls).
  cbn [lines]. rewrite append_assoc. cbn [String.append].
  rewrite (readCommands_loop_line _ _ stop _ Hstop), Hno. reflexivity.
Qed.

(** X11: input whose lines end in a carriage return and a newline stops the
    wizard at the first file: the name is read, the carriage return is taken
    as the byte that ends it, and the newline left behind makes the read of
    the path fail.  The variable loops accept such lines, so the global
    variables are collected before the run fails with status 1. *)
Theorem carriage_return_breaks_file_fields (ParseFloat : string -> option float)
  (env : Env) (gls : list string) (stop name rest : string) :
  Forall variable_line gls -> stop_line stop -> ascii_word name = true ->
  readFiles ParseFloat (name +:+ String CR (String LF rest))
  = Fail (Wrapf "file parameters" ErrUnexpectedNewline)
  ∧ main ParseFloat env
      (lines gls +:+ lines [stop] +:+ name +:+ String CR (String LF rest))
    = {| status := 1;
         logged := [FailedToProcessConfig
                      (Wrapf "file parameters" ErrUnexpectedNewline)];
         written := None |}.
Proof.
  intros Hgls Hstop Hname.
  assert (readFiles ParseFloat (name +:+ String CR (String LF rest))
          = Fail (Wrapf "file parameters" ErrUnexpectedNewline)) as Hfiles.
  { apply readFiles_first_failure, readFile_field_failure.
    right. left. exists name, (String LF rest). split.
    - apply scan_first_word; [assumption | reflexivity].
    - exact (scan_newline EmptyString rest eq_refl). }
  split; [exact Hfiles|].
  unfold main. rewrite (readGlobals_lines_stop ParseFloat gls stop _ Hgls Hstop), Hfiles.
  reflexivity.
Qed.

Lemma carriage_return_breaks_file_fields_witness :
  main no_floats {| path := EmptyString; Create := fun _ => None; Write := None |}
    (lines [String "k" (String " " (String "2" (String CR EmptyString)))]
     +:+ lines [String "n" (String CR EmptyString)]
     +:+ "a.txt" +:+ String CR (String LF "/tmp"))
  = {| status := 1;
       logged := [FailedToProcessConfig
                    (Wrapf "file parameters" ErrUnexpectedNewline)];
       written := None |}.
Proof.
  apply (proj2 (carriage_return_breaks_file_fields no_floats _
                  [String "k" (String " " (String "2" (String CR EmptyString)))]
                  (String "n" (String CR EmptyString)) "a.txt" "/tmp"
                  ltac:(repeat (constructor; [solve_variable_line|]); constructor)
                  ltac:(split; [split; vm_compute; congruence | reflexivity])
                  eq_refl)).
Defined.

(** The three stages on a whole session. *)
Lemma session_collected (ParseFloat : string -> option float)
  (gls : list string) (es : list entry) (cls : list string) (rest : string) :
  Forall variable_line gls -> es ≠ [] -> Forall good_entry es ->
  Forall command_line cls ->
  collected ParseFloat
    (lines gls +:+ lines [no] +:+ files_input es +:+ lines cls +:+ lines [no] +:+ rest)
    {| Global := variables_of ParseFloat gls;
       Files := file_of ParseFloat <$> es;
       Cmds := commands_of cls |}.
Proof.
  intros Hgls Hne Hes Hcls.
  exists (files_input es +:+ lines cls +:+ lines [no] +:+ rest),
    (lines cls +:+ lines [no] +:+ rest), rest.
  cbn [Global Files Cmds]. split; [|split].
  - apply readGlobals_lines_stop; [assumption | apply stop_line_no].
  - apply readFiles_entries; assumption.
  - apply readCommands_lines_stop; [assumption | apply stop_line_no].
Qed.

(** X12: a whole session: variable lines and the negative token, the
    entries of the files with their answers, command lines and the negative
    token.  The three stages collect the mapping of the variable lines, the
    files of the entries and the commands of the command lines, and the
    deferred function of [main] is run on that configuration; what is typed
    after the last negative token is not read. *)
Theorem main_collects_session (ParseFloat : string -> option float) (env : Env)
  (gls : list string) (es : list entry) (cls : list string) (rest : string) :
  Forall variable_line gls -> es ≠ [] -> Forall good_entry es ->
  Forall command_line cls ->
  main ParseFloat env
    (lines gls +:+ lines [no] +:+ files_input es +:+ lines cls +:+ lines [no] +:+ rest)
  = produce_output env
      {| Global := variables_of ParseFloat gls;
         Files := file_of ParseFloat <$> es;
         Cmds := commands_of cls |}.
Proof.
  intros Hgls Hne Hes Hcls. apply main_collected, session_collected; assumption.
Qed.

Lemma main_collects_session_witness :
  main no_floats {| path := EmptyString; Create := fun _ => None; Write := None |}
    (lines ["k 2"] +:+ lines [no]
     +:+ files_input [ {| entry_name := "a.txt"; entry_path := "/tmp";
                          entry_template := "tpl"; entry_locals := [] |} ]
     +:+ lines ["ls -a"] +:+ lines [no] +:+ "more")
  = produce_output {| path := EmptyString; Create := fun _ => None; Write := None |}
      {| Global := variables_of no_floats ["k 2"];
         Files := file_of no_floats
                    <$> [ {| entry_name := "a.txt"; entry_path := "/tmp";
                             entry_template := "tpl"; entry_locals := [] |} ];
         Cmds := commands_of ["ls -a"] |}.
Proof.
  apply main_collects_session.
  - repeat (constructor; [solve_variable_line|]); constructor.
  - discriminate.
  - repeat (constructor; [solve_good_entry|]); constructor.
  - repeat (constructor;
            [split; [split; vm_compute; congruence|];
             split; [vm_compute; congruence | right; vm_compute; congruence]|]);
      constructor.
Defined.

(** ** The outcomes of [main] *)

(** X13: [main] writes a document exactly when the three stages succeed,
    the collected configuration can be encoded, the output file, if one is
    asked for, can be created and the write succeeds; the document is the
    encoding of the collected configuration, written to standard output
    when no path is given and to the file of that path otherwise. *)
Theorem main_writes_document_iff (ParseFloat : string -> option float) (env : Env)
  (stdin : string) (d : destination) (doc : json.t) :
  written (main ParseFloat env stdin) = Some (d, doc)
  ↔ ∃ c, collected ParseFloat stdin c
         ∧ json.encode_Config c = Some doc
         ∧ Write env = None
         ∧ output_destination env = Some d.
Proof.
  split.
  - unfold main.
    destruct (readGlobals ParseFloat stdin) as [glob s1|] eqn:Hg; [|discriminate].
    destruct (readFiles ParseFloat s1) as [files s2|] eqn:Hf; [|discriminate].
    destruct (readCommands s2) as [cmds s3|] eqn:Hc; [|discriminate].
    intros H. exists {| Global := glob; Files := files; Cmds := cmds |}.
    split; [exists s1, s2, s3; auto|].
    revert H. unfold produce_output, Encode, output_destination.
    destruct (String.eqb (path env) EmptyString).
    + destruct (json.encode_Config _); [|discriminate].
      destruct (Write env); [discriminate|].
      intros H. inversion H; subst. auto.
    + destruct (Create env (path env)); [discriminate|].
      destruct (json.encode_Config _); [|discriminate].
      destruct (Write env); [discriminate|].
      intros H. inversion H; subst. auto.
  - intros (c & Hc & Henc & Hw & Hd).
    rewrite (main_collected ParseFloat env stdin c Hc).
    unfold produce_output, Encode. unfold output_destination in Hd.
    destruct (String.eqb (path env) EmptyString).
    + rewrite Henc, Hw. inversion Hd; subst. reflexivity.
    + destruct (Create env (path env)); [discriminate|].
      rewrite Henc, Hw. inversion Hd; subst. reflexivity.
Qed.


(** ** The errors of the stages *)

Lemma SkipSpace_error fuel :
  ∀ s err, fmt.SkipSpace fuel s = inr err -> err = ErrUnexpectedNewline.
Proof.
  induction fuel as [|fuel IH]; intros s err; cbn [fmt.SkipSpace]; [discriminate|].
  destruct (fmt.getRune s) as [[r s']|]; [|discriminate].
  destruct ((r =? 13) && fmt.peek_newline s'); [apply IH|].
  destruct (r =? 10); [intros H; inversion H; reflexivity|].
  destruct (negb (isSpace r)); [discriminate | apply IH].
Qed.

Lemma scan_errors s err : scan s = Fail err -> scan_error err.
Proof.
  unfold scan, fmt.Scanf_s, scan_error.
  destruct (fmt.SkipSpace (String.length s) s) as [s1|e] eqn:Esk.
  - destruct s1 as [|c s1].
    + intros H. inversion H. auto.
    + destruct (fmt.token (String.length s) (String c s1)) as [t rest].
      cbn. discriminate.
  - apply SkipSpace_error in Esk as ->. intros H. inversion H. auto.
Qed.

Lemma Scan_error s err : bufio.Scan s = bufio.Done (Some err) -> err = ErrTooLong.
Proof.
  unfold bufio.Scan. destruct s as [|c s]; [discriminate|].
  destruct (bufio.break_line (String c s)) as [line rest].
  destruct (bufio.MaxScanTokenSize <=? Z.of_nat (String.length line));
    [intros H; inversion H; reflexivity | discriminate].
Qed.

Lemma processVariables_loop_errors (ParseFloat : string -> option float) fuel :
  ∀ result s err,
    processVariables_loop ParseFloat fuel result s = Fail err -> variables_error err.
Proof.
  induction fuel as [|fuel IH]; intros result s err; cbn [processVariables_loop];
    [discriminate|].
  destruct (bufio.Scan s) as [text rest|[e|]] eqn:E.
  - destruct (String.eqb text yes); [apply IH|].
    destruct (String.eqb text no); [discriminate|].
    destruct (strings.Split text " ") as [|name [|val [|? ?]]];
      try (intros H; inversion H; left; reflexivity).
    apply IH.
  - apply Scan_error in E as ->. intros H. inversion H. right. reflexivity.
  - discriminate.
Qed.

Lemma readCommands_loop_errors fuel :
  ∀ result s err,
    readCommands_loop fuel result s = Fail err ->
    err = Errorf "incorrect command declaration length"
    ∨ err = Wrapf "read commands" ErrTooLong.
Proof.
  induction fuel as [|fuel IH]; intros result s err; cbn [readCommands_loop];
    [discriminate|].
  destruct (bufio.Scan s) as [text rest|[e|]] eqn:E.
  - destruct (String.eqb text yes); [apply IH|].
    destruct (String.eqb text no); [discriminate|].
    destruct (strings.Fields text) as [|name args]; [|apply IH].
    intros H. inversion H. left. reflexivity.
  - apply Scan_error in E as ->. intros H. inversion H. right. reflexivity.
  - discriminate.
Qed.

Lemma readFile_errors (ParseFloat : string -> option float) s err :
  readFile ParseFloat s = Fail err ->
  ∃ e, err = Wrapf "file parameters" e ∧ (scan_error e ∨ variables_error e).
Proof.
  unfold readFile. unfold_M.
  destruct (scan s) as [name s1|e] eqn:E1;
    [|intros H; inversion H; eauto using scan_errors].
  destruct (scan s1) as [path s2|e] eqn:E2;
    [|intros H; inversion H; eauto using scan_errors].
  destruct (scan s2) as [template s3|e] eqn:E3;
    [|intros H; inversion H; eauto using scan_errors].
  destruct (processVariables ParseFloat s3) as [loc s4|e] eqn:E4; [discriminate|].
  intros H. inversion H. eexists. split; [reflexivity|]. right.
  exact (processVariables_loop_errors ParseFloat _ _ _ _ E4).
Qed.

Lemma readFiles_loop_errors (ParseFloat : string -> option float) fuel :
  ∀ result s err,
    readFiles_loop ParseFloat fuel result s = Fail err ->
    ∃ e, err = Wrapf "file parameters" e ∧ (scan_error e ∨ variables_error e).
Proof.
  induction fuel as [|fuel IH]; intros result s err; cbn [readFiles_loop];
    [discriminate|].
  unfold mbind at 1. unfold M_bind at 1.
  destruct (readFiles_turn ParseFloat result s) as [t s'|e] eqn:Et.
  - destruct t; [apply IH | discriminate].
  - intros H. inversion H; subst. clear H. revert Et.
    unfold readFiles_turn. unfold_M.
    destruct (readFile ParseFloat s) as [f s1|e'] eqn:Ef.
    + destruct (scan s1) as [answer s2|e'] eqn:Ea.
      * destruct (String.eqb answer yes); [discriminate|].
        destruct (String.eqb answer no); discriminate.
      * intros H. inversion H. eauto using scan_errors.
    + intros H. inversion H; subst. exact (readFile_errors ParseFloat s _ Ef).
Qed.

(** X15: the branch of [scan] that reports a wrong number of tokens is
    never taken: [scan] fails only at the end of the input and at a newline
    that comes before any word, and when it succeeds the word is not empty
    and at least one byte of the input has been read. *)
Theorem scan_never_counts_tokens (s : string) :
  match scan s with
  | Fail err => err = EOF ∨ err = ErrUnexpectedNewline
  | Ok t rest => t ≠ EmptyString ∧ (String.length rest < String.length s)%nat
  end.
Proof.
  destruct (scan s) as [t rest|err] eqn:E.
  - exact (scan_token s t rest E).
  - exact (scan_errors s err E).
Qed.

(** X16: the errors a run can log for a failed stage: a malformed variable
    line or an overlong line in the global stage; the same, the end of the
    input or an empty line where a field or an answer is expected in the
    file stage; a line without fields or an overlong line in the command
    stage.  Each carries the prefix of its stage, but the error of a
    command line without fields, which carries none. *)
Theorem stage_errors (ParseFloat : string -> option float) (env : Env)
  (stdin : string) (err : error) :
  (readGlobals ParseFloat stdin = Fail err ->
   ∃ e, err = Wrapf "global variables" e ∧ variables_error e)
  ∧ (readFiles ParseFloat stdin = Fail err ->
     ∃ e, err = Wrapf "file parameters" e ∧ (scan_error e ∨ variables_error e))
  ∧ (readCommands stdin = Fail err ->
     err = Errorf "incorrect command declaration length"
     ∨ err = Wrapf "read commands" ErrTooLong)
  ∧ (logged (main ParseFloat env stdin) = [FailedToProcessConfig err] ->
     stage_error err).
Proof.
  assert (∀ s e, readGlobals ParseFloat s = Fail e ->
            ∃ e', e = Wrapf "global variables" e' ∧ variables_error e') as Hg.
  { intros s e. unfold readGlobals, wrapping.
    destruct (processVariables ParseFloat s) as [m s'|e'] eqn:E; [discriminate|].
    intros H. inversion H. eexists. split; [reflexivity|].
    exact (processVariables_loop_errors ParseFloat _ _ _ _ E). }
  split; [apply Hg|]. split; [apply readFiles_loop_errors|].
  split; [apply readCommands_loop_errors|].
  unfold main, stage_error.
  destruct (readGlobals ParseFloat stdin) as [glob s1|e] eqn:E1.
  - destruct (readFiles ParseFloat s1) as [files s2|e] eqn:E2.
    + destruct (readCommands s2) as [cmds s3|e] eqn:E3.
      * unfold produce_output.
        destruct (String.eqb (path env) EmptyString);
          [|destruct (Create env (path env))];
          try destruct (Encode env _); cbn; discriminate.
      * cbn. intros H. inversion H; subst. right. right.
        exact (readCommands_loop_errors _ _ _ _ E3).
    + cbn. intros H. inversion H; subst. right. left.
      exact (readFiles_loop_errors ParseFloat _ _ _ _ E2).
  - cbn. intros H. inversion H; subst. left. exact (Hg _ _ E1).
Qed.

(** ** The document and the values it cannot hold *)

Lemma encode_value_finite v : is_Some (json.encode_value v) ↔ finite_value v = true.
Proof.
  destruct v as [b|i|f|s]; try (split; [reflexivity | cbn; eauto]).
  unfold json.encode_value, finite_value.
  destruct (is_nan f || is_infinity f); cbn [negb].
  - split; [intros [? H]; discriminate H | intros H; discriminate H].
  - split; [reflexivity | eauto].
Qed.

Lemma encode_member_finite kv :
  is_Some (json.encode_member kv) ↔ finite_value kv.2 = true.
Proof.
  rewrite <- encode_value_finite. unfold json.encode_member.
  destruct (json.encode_value kv.2); cbn; split; eauto;
    intros [? H]; discriminate H.
Qed.

Lemma encode_variables_finite m :
  is_Some (json.encode_variables m) ↔ finite_variables m.
Proof.
  destruct m as [m|]; cbn; [|split; eauto].
  rewrite map_Forall_to_list.
  pose proof (merge_sort_Permutation json.key_le (map_to_list m)) as Hperm.
  assert (Forall (uncurry (fun (_ : string) v => finite_value v = true))
            (merge_sort json.key_le (map_to_list m))
          ↔ Forall (uncurry (fun (_ : string) v => finite_value v = true))
              (map_to_list m)) as <-.
  { split; apply Permutation_Forall; [exact Hperm | symmetry; exact Hperm]. }
  clear Hperm.
  destruct (mapM json.encode_member (merge_sort json.key_le (map_to_list m)))
    as [members|] eqn:E; cbn.
  - split; [intros _ | eauto].
    assert (is_Some (mapM json.encode_member
                       (merge_sort json.key_le (map_to_list m)))) as H
      by (rewrite E; eauto).
    apply mapM_is_Some in H. eapply Forall_impl; [exact H|].
    intros [k v] Hkv. apply encode_member_finite in Hkv. exact Hkv.
  - split; [intros [? H]; discriminate H|]. intros H. exfalso.
    assert (is_Some (mapM json.encode_member
                       (merge_sort json.key_le (map_to_list m)))) as [? H'].
    { apply mapM_is_Some. eapply Forall_impl; [exact H|].
      intros [k v] Hkv. apply encode_member_finite. exact Hkv. }
    rewrite E in H'. discriminate H'.
Qed.

Lemma encode_File_finite f :
  is_Some (json.encode_File f) ↔ finite_variables (File.Local f).
Proof.
  rewrite <- encode_variables_finite. unfold json.encode_File.
  destruct (json.encode_variables (File.Local f)); cbn; split; eauto;
    intros [? H]; discriminate H.
Qed.

Lemma encode_Config_finite c : is_Some (json.encode_Config c) ↔ finite_Config c.
Proof.
  unfold finite_Config, json.encode_Config.
  rewrite <- encode_variables_finite.
  destruct (json.encode_variables (Global c)) as [glob|]; cbn;
    [|split; [intros [? H]; discriminate H | intros [[? H] _]; discriminate H]].
  destruct (mapM json.encode_File (Files c)) as [files|] eqn:E; cbn.
  - split; [intros _ | eauto]. split; [eauto|].
    assert (is_Some (mapM json.encode_File (Files c))) as H by (rewrite E; eauto).
    apply mapM_is_Some in H. eapply Forall_impl; [exact H|].
    intros f Hf. apply encode_File_finite in Hf. exact Hf.
  - split; [intros [? H]; discriminate H|]. intros [_ H]. exfalso.
    assert (is_Some (mapM json.encode_File (Files c))) as [? H'].
    { apply mapM_is_Some. eapply Forall_impl; [exact H|].
      intros f Hf. apply encode_File_finite. exact Hf. }
    rewrite E in H'. discriminate H'.
Qed.

(** X17: a configuration can be encoded exactly when no value of its global
    mapping and of the local mappings of its files is a float that is a NaN
    or an infinity; strings, names, paths and commands never make the
    encoder fail. *)
Theorem encode_Config_succeeds_iff_finite (c : Config) :
  (∃ doc, json.encode_Config c = Some doc) ↔ finite_Config c.
Proof.
  exact (encode_Config_finite c).
Qed.

(** X18: one value that the float parser reads as a NaN or an infinity
    loses the whole document: the three stages succeed, the output file, if
    one is asked for, is created, nothing is written, the failure to
    produce the output is logged and the exit status is 0. *)
Theorem non_finite_value_loses_document (ParseFloat : string -> option float)
  (env : Env) (stdin : string) (c : Config) (d : destination) :
  collected ParseFloat stdin c -> ¬ finite_Config c ->
  output_destination env = Some d ->
  main ParseFloat env stdin
  = {| status := 0;
       logged := [FailedToProduceOutput UnsupportedValueError];
       written := None |}.
Proof.
  intros Hc Hfin Hd. rewrite (main_collected ParseFloat env stdin c Hc).
  unfold produce_output, Encode. unfold output_destination in Hd.
  destruct (json.encode_Config c) as [doc|] eqn:E.
  { destruct Hfin. apply encode_Config_finite. eauto. }
  destruct (String.eqb (path env) EmptyString); [reflexivity|].
  destruct (Create env (path env)); [discriminate | reflexivity].
Qed.

Lemma non_finite_value_loses_document_witness :
  main nan_only {| path := EmptyString; Create := fun _ => None; Write := None |}
    (lines ["x NaN"] +:+ lines [no]
     +:+ files_input [ {| entry_name := "a.txt"; entry_path := "/tmp";
                          entry_template := "tpl"; entry_locals := [] |} ]
     +:+ lines [] +:+ lines [no] +:+ EmptyString)
  = {| status := 0;
       logged := [FailedToProduceOutput UnsupportedValueError];
       written := None |}.
Proof.
  apply (non_finite_value_loses_document nan_only _ _
           {| Global := variables_of nan_only ["x NaN"];
              Files := file_of nan_only
                         <$> [ {| entry_name := "a.txt"; entry_path := "/tmp";
                                  entry_template := "tpl"; entry_locals := [] |} ];
              Cmds := commands_of [] |} Stdout).
  - apply session_collected.
    + repeat (constructor; [solve_variable_line|]); constructor.
    + discriminate.
    + repeat (constructor; [solve_good_entry|]); constructor.
    + constructor.
  - intros [Hg _]. cbn [Global] in Hg.
    specialize (Hg "x" (VFloat PrimFloat.nan) ltac:(vm_compute; reflexivity)).
    vm_compute in Hg. discriminate Hg.
  - reflexivity.
Defined.

(** ** The members of the document *)

Lemma mapM_encode_member_keys kvs :
  ∀ members,
    mapM json.encode_member kvs = Some members ->
    members.*1 = json.coerce <$> kvs.*1.
Proof.
  intros members H. apply mapM_Some in H.
  induction H as [|[k v] [k' j] kvs members Hkv _ IH]; [reflexivity|].
  cbn [fmap list_fmap fst]. f_equal; [|exact IH].
  unfold json.encode_member in Hkv. cbn [fst snd] in Hkv.
  destruct (json.encode_value v); cbn in Hkv; [|discriminate Hkv].
  inversion Hkv. reflexivity.
Qed.

Lemma key_le_total : Total json.key_le.
Proof. intros x y. unfold json.key_le. apply String.le_total. Qed.

(** X19: the members of an encoded mapping are written one per key, in the
    ascending byte order of the keys, whatever the order in which the
    operator entered them. *)
Theorem mapping_keys_are_sorted (m : gmap string value) (j : json.t) :
  json.encode_variables (Some m) = Some j ->
  ∃ members ks,
    j = json.Object members
    ∧ members.*1 = json.coerce <$> ks
    ∧ Sorted String.le ks
    ∧ NoDup ks
    ∧ ∀ k, k ∈ ks ↔ is_Some (m !! k).
Proof.
  cbn [json.encode_variables].
  destruct (mapM json.encode_member (merge_sort json.key_le (map_to_list m)))
    as [members|] eqn:E; [|discriminate].
  intros H. inversion H; subst. clear H.
  exists members, (merge_sort json.key_le (map_to_list m)).*1.
  pose proof (merge_sort_Permutation json.key_le (map_to_list m)) as Hperm.
  split; [reflexivity|]. split; [exact (mapM_encode_member_keys _ _ E)|].
  split; [|split].
  - apply Sorted_fmap with (R1 := json.key_le).
    + intros x y Hxy. exact Hxy.
    + pose proof key_le_total as Htotal. apply Sorted_merge_sort. exact Htotal.
  - rewrite Hperm. apply NoDup_fst_map_to_list.
  - intros k. rewrite Hperm. rewrite list_elem_of_fmap. split.
    + intros ([k' v] & -> & Hin). apply elem_of_map_to_list in Hin. eauto.
    + intros [v Hv]. exists (k, v). split; [reflexivity|].
      apply elem_of_map_to_list. exact Hv.
Qed.

Lemma mapping_keys_are_sorted_witness :
  ∃ members ks,
    json.Object [("a", json.Int 2); ("b", json.Int 1)] = json.Object members
    ∧ members.*1 = json.coerce <$> ks
    ∧ Sorted String.le ks
    ∧ NoDup ks
    ∧ ∀ k, k ∈ ks ↔ is_Some ((<["b" := VInt 1]> (<["a" := VInt 2]> ∅) : gmap string value) !! k).
Proof.
  apply (mapping_keys_are_sorted (<["b" := VInt 1]> (<["a" := VInt 2]> ∅))).
  vm_compute. reflexivity.
Defined.

(** X20: a document that [main] writes always has the member [global]
    first and the member [files] second, since the file collector returns
    at least one file; the member [commands] follows exactly when a command
    was collected, and there is no other member. *)
Theorem written_document_members (ParseFloat : string -> option float) (env : Env)
  (stdin : string) (d : destination) (doc : json.t) :
  written (main ParseFloat env stdin) = Some (d, doc) ->
  ∃ c, collected ParseFloat stdin c
       ∧ keys doc = ["global"; "files"]
                    ++ (if Cmds c is [] then [] else ["commands"]).
Proof.
  unfold main.
  destruct (readGlobals ParseFloat stdin) as [glob s1|] eqn:Hg; [|discriminate].
  destruct (readFiles ParseFloat s1) as [files s2|] eqn:Hf; [|discriminate].
  destruct (readCommands s2) as [cmds s3|] eqn:Hc; [|discriminate].
  intros H. exists {| Global := glob; Files := files; Cmds := cmds |}.
  split; [exists s1, s2, s3; auto|].
  pose proof (readFiles_not_empty ParseFloat s1 files s2 Hf) as Hne.
  assert (json.encode_Config {| Global := glob; Files := files; Cmds := cmds |}
          = Some doc) as Henc.
  { revert H. unfold produce_output, Encode.
    destruct (String.eqb (path env) EmptyString);
      [|destruct (Create env (path env)); [discriminate|]];
      (destruct (json.encode_Config _); [|discriminate]);
      (destruct (Write env); [discriminate|]);
      intros H; inversion H; reflexivity. }
  revert Henc. unfold json.encode_Config. cbn [Global Files Cmds].
  destruct (json.encode_variables glob) as [g|]; [|discriminate].
  destruct (mapM json.encode_File files) as [fs|]; [|discriminate].
  cbn. destruct files as [|f files]; [congruence|].
  intros H'. inversion H'; subst. destruct cmds; reflexivity.
Qed.

Lemma written_document_members_witness :
  ∃ c, collected no_floats
         (lines [] +:+ lines [no]
          +:+ files_input [ {| entry_name := "a.txt"; entry_path := "/tmp";
                               entry_template := "tpl"; entry_locals := [] |} ]
          +:+ lines [] +:+ lines [no] +:+ EmptyString) c
       ∧ keys (json.Object
                 [("global", json.Null);
                  ("files", json.Array
                     [json.Object [("name", json.String "a.txt");
                                   ("path", json.String "/tmp");
                                   ("template", json.String "tpl");
                                   ("local", json.Null)]])])
         = ["global"; "files"] ++ (if Cmds c is [] then [] else ["commands"]).
Proof.
  apply (written_document_members no_floats
           {| path := EmptyString; Create := fun _ => None; Write := None |} _ Stdout).
  rewrite (main_collected _ _ _ _
             (session_collected no_floats []
                [ {| entry_name := "a.txt"; entry_path := "/tmp";
                     entry_template := "tpl"; entry_locals := [] |} ] [] EmptyString
                ltac:(constructor) ltac:(discriminate)
                ltac:(repeat (constructor; [solve_good_entry|]); constructor)
                ltac:(constructor))).
  vm_compute. reflexivity.
Defined.

(** ** The commands *)

Lemma extend_not_empty field chunk :
  chunk ≠ EmptyString -> default EmptyString field +:+ chunk ≠ EmptyString.
Proof.
  intros Hc H. apply (f_equal String.length) in H.
  rewrite length_append in H. destruct chunk; [congruence | simpl in H; lia].
Qed.

Lemma Fields_ascii_not_empty s :
  ∀ field,
    Forall (fun a => a ≠ EmptyString) (strings.flush field) ->
    Forall (fun a => a ≠ EmptyString) (strings.Fields_ascii s field).
Proof.
  induction s as [|c s IH]; intros field Hf; cbn [strings.Fields_ascii]; [exact Hf|].
  destruct (strings.asciiSpace (byte_val c)).
  - apply Forall_app. split; [exact Hf | apply IH; constructor].
  - apply IH. unfold strings.extend. cbn [strings.flush].
    constructor; [|constructor]. apply extend_not_empty. discriminate.
Qed.

Lemma FieldsFunc_loop_not_empty f fuel :
  ∀ s field,
    Forall (fun a => a ≠ EmptyString) (strings.flush field) ->
    Forall (fun a => a ≠ EmptyString) (strings.FieldsFunc_loop fuel f s field).
Proof.
  induction fuel as [|fuel IH]; intros s field Hf; cbn [strings.FieldsFunc_loop];
    [exact Hf|].
  destruct s as [|c s]; [exact Hf|].
  pose proof (DecodeRune_size c s) as Hsize.
  destruct (utf8.DecodeRune (String c s)) as [r size]. cbn [snd] in Hsize.
  destruct (f r).
  - apply Forall_app. split; [exact Hf | apply IH; constructor].
  - apply IH. unfold strings.extend. cbn [strings.flush].
    constructor; [|constructor]. apply extend_not_empty.
    destruct size as [|size]; [lia|]. discriminate.
Qed.

Lemma Fields_not_empty s : Forall (fun a => a ≠ EmptyString) (strings.Fields s).
Proof.
  unfold strings.Fields, strings.FieldsFunc.
  destruct (strings.is_ascii s).
  - apply Fields_ascii_not_empty. constructor.
  - apply FieldsFunc_loop_not_empty. constructor.
Qed.

Lemma readCommands_loop_has_name fuel :
  ∀ result s cs rest,
    Forall has_name result ->
    readCommands_loop fuel result s = Ok cs rest ->
    Forall has_name cs ∧ (String.length rest <= String.length s)%nat.
Proof.
  induction fuel as [|fuel IH]; intros result s cs rest Hr; cbn [readCommands_loop].
  - intros H. inversion H; subst. auto.
  - destruct (bufio.Scan s) as [text s'|[e|]] eqn:E.
    + apply Scan_shrinks in E.
      destruct (String.eqb text yes).
      { intros H. apply IH in H as [H1 H2]; [|exact Hr]. split; [exact H1 | lia]. }
      destruct (String.eqb text no).
      { intros H. inversion H; subst. split; [exact Hr | lia]. }
      pose proof (Fields_not_empty text) as Hf.
      destruct (strings.Fields text) as [|name args]; [discriminate|].
      apply Forall_cons in Hf as [Hname Hargs].
      intros H. apply IH in H as [H1 H2]; [split; [exact H1 | lia]|].
      apply Forall_app. split; [exact Hr|]. constructor; [|constructor].
      split; assumption.
    + discriminate.
    + intros H. inversion H; subst. auto.
Qed.

(** X21: no command that the command collector returns has an empty name
    or an empty argument, and the collector never gives input back: what
    it leaves is no longer than what it was given. *)
Theorem commands_have_names (s : string) (cs : list Command.t) (rest : string) :
  readCommands s = Ok cs rest ->
  Forall has_name cs ∧ (String.length rest <= String.length s)%nat.
Proof.
  unfold readCommands. apply readCommands_loop_has_name. constructor.
Qed.

Lemma commands_have_names_witness :
  Forall has_name [Command.mk "ls" ["-a"; "-l"]]
  ∧ (String.length "rest" <= String.length (lines ["ls  -a -l"; "n"] +:+ "rest"))%nat.
Proof.
  apply (commands_have_names (lines ["ls  -a -l"; "n"] +:+ "rest")).
  vm_compute. reflexivity.
Defined.

(** ** Lines the scanner cannot hold *)

Lemma Scan_overlong l tail :
  has_newline l = false ->
  bufio.MaxScanTokenSize <= Z.of_nat (String.length l) ->
  bufio.Scan (l +:+ String LF tail) = bufio.Done (Some ErrTooLong).
Proof.
  intros Hnl Hlen. unfold bufio.Scan.
  rewrite (break_line_typed l tail Hnl).
  destruct (l +:+ String LF tail) eqn:E; [destruct l; discriminate E|].
  destruct (Z.leb_spec bufio.MaxScanTokenSize (Z.of_nat (String.length l)));
    [reflexivity | lia].
Qed.

Lemma has_newline_repeat_byte n c :
  Ascii.eqb c LF = false -> has_newline (repeat_byte n c) = false.
Proof.
  intros Hc. induction n as [|n IH]; cbn [repeat_byte has_newline]; [reflexivity|].
  rewrite Hc, IH. reflexivity.
Qed.

Lemma length_repeat_byte n c : String.length (repeat_byte n c) = n.
Proof.
  induction n as [|n IH]; cbn [repeat_byte String.length]; [reflexivity|].
  rewrite IH. reflexivity.
Qed.

(** X22: a line of 65536 bytes or more ends a loop over lines with the
    error of the scanner, under the prefix of the loop: the variables
    collected from the lines before it are dropped, and in the global stage
    the run fails with status 1. *)
Theorem overlong_line_aborts (ParseFloat : string -> option float) (env : Env)
  (pre : list string) (cmds : list string) (l tail : string) :
  Forall variable_line pre -> Forall command_line cmds ->
  has_newline l = false ->
  bufio.MaxScanTokenSize <= Z.of_nat (String.length l) ->
  processVariables ParseFloat (lines pre +:+ l +:+ String LF tail)
  = Fail (Wrapf "process variables" ErrTooLong)
  ∧ readCommands (lines cmds +:+ l +:+ String LF tail)
    = Fail (Wrapf "read commands" ErrTooLong)
  ∧ main ParseFloat env (lines pre +:+ l +:+ String LF tail)
    = {| status := 1;
         logged := [FailedToProcessConfig
                      (Wrapf "global variables"
                         (Wrapf "process variables" ErrTooLong))];
         written := None |}.
Proof.
  intros Hpre Hcmds Hnl Hlen.
  assert (processVariables ParseFloat (lines pre +:+ l +:+ String LF tail)
          = Fail (Wrapf "process variables" ErrTooLong)) as Hvars.
  { rewrite (processVariables_lines ParseFloat pre _ Hpre).
    cbn [processVariables_loop]. rewrite (Scan_overlong l tail Hnl Hlen). reflexivity. }
  split; [exact Hvars|]. split.
  - rewrite (readCommands_lines cmds _ Hcmds).
    cbn [readCommands_loop]. rewrite (Scan_overlong l tail Hnl Hlen). reflexivity.
  - unfold main, readGlobals, wrapping. rewrite Hvars. reflexivity.
Qed.

Lemma overlong_line_aborts_witness :
  processVariables no_floats
    (lines ["k 2"] +:+ repeat_byte (Z.to_nat bufio.MaxScanTokenSize) "a"
     +:+ String LF "n")
  = Fail (Wrapf "process variables" ErrTooLong).
Proof.
  apply (proj1 (overlong_line_aborts no_floats
                  {| path := EmptyString; Create := fun _ => None; Write := None |}
                  ["k 2"] [] (repeat_byte (Z.to_nat bufio.MaxScanTokenSize) "a") "n"
                  ltac:(repeat (constructor; [solve_variable_line|]); constructor)
                  ltac:(constructor)
                  (has_newline_repeat_byte _ "a" eq_refl)
                  ltac:(rewrite length_repeat_byte, Z2Nat.id;
                        unfold bufio.MaxScanTokenSize; lia))).
Defined.

(** ** The nil mapping *)

Lemma store_line_nil (ParseFloat : string -> option float) result l :
  variable_line l ->
  store_line ParseFloat result l = None ↔ result = None ∧ bufio.dropCR l = yes.
Proof.
  intros (_ & _ & Hparts). unfold store_line.
  destruct (String.eqb_spec (bufio.dropCR l) yes) as [Hy|Hy].
  - split; [auto | intros [H _]; exact H].
  - destruct Hparts as [Hy' | (name & val & ->)]; [contradiction|].
    split; [discriminate | intros [_ H]; contradiction].
Qed.

Lemma variables_of_nil (ParseFloat : string -> option float) ls :
  Forall variable_line ls ->
  variables_of ParseFloat ls = None ↔ Forall (fun l => bufio.dropCR l = yes) ls.
Proof.
  induction ls as [|l ls IH] using rev_ind; intros Hls.
  - split; [constructor | reflexivity].
  - apply Forall_app in Hls as [Hls Hl]. apply Forall_cons in Hl as [Hl _].
    rewrite variables_of_snoc, (store_line_nil ParseFloat _ l Hl), (IH Hls).
    rewrite Forall_app. split.
    + intros [H1 H2]. split; [exact H1 | constructor; [exact H2 | constructor]].
    + intros [H1 H2]. apply Forall_cons in H2 as [H2 _]. auto.
Qed.

(** X23: a variable loop returns the nil mapping, which the document shows
    as [null], exactly when no pair was entered: the operator answered with
    the negative token at once, or after affirmative tokens only.  One pair
    is enough for a mapping, which the document shows as an object. *)
Theorem nil_mapping_iff_no_pair (ParseFloat : string -> option float)
  (ls : list string) (rest : string) :
  Forall variable_line ls ->
  (processVariables ParseFloat (lines ls +:+ lines [no] +:+ rest) = Ok None rest
   ↔ Forall (fun l => bufio.dropCR l = yes) ls)
  ∧ (json.encode_variables (variables_of ParseFloat ls) = Some json.Null
     ↔ Forall (fun l => bufio.dropCR l = yes) ls).
Proof.
  intros Hls. rewrite (processVariables_lines_no ParseFloat ls rest Hls).
  rewrite <- (variables_of_nil ParseFloat ls Hls). split.
  - split; [intros H; inversion H; reflexivity | intros ->; reflexivity].
  - destruct (variables_of ParseFloat ls) as [m|]; [|split; reflexivity].
    cbn [json.encode_variables]. split; [|discriminate].
    destruct (mapM json.encode_member (merge_sort json.key_le (map_to_list m)));
      cbn; discriminate.
Qed.

Lemma nil_mapping_iff_no_pair_witness :
  processVariables no_floats (lines ["y"; "y"] +:+ lines [no] +:+ "a.txt")
  = Ok None "a.txt"
  ↔ Forall (fun l => bufio.dropCR l = yes) ["y"; "y"].
Proof.
  apply (proj1 (nil_mapping_iff_no_pair no_floats ["y"; "y"] "a.txt"
                  ltac:(repeat (constructor; [solve_variable_line|]); constructor))).
Defined.
